(** * ev3dev: device discovery and address codec

    A shallow embedding of the sysfs helpers of package [ev3dev]
    ([deviceDir], [findByAddress], [parseDeviceName], [readAttrBytes],
    [readAttrAddr], [newAddress], [address.String]) together with the
    properties of the device scanner and of the address codec. *)

From Stdlib Require Import ZArith Lia Bool List.
From Stdlib Require Import Strings.Byte Strings.Ascii Strings.String.
From stdpp Require Import base list sorting.

Local Open Scope Z_scope.

(** ** Bytes and Go built-ins *)

(** [byte(n)]: conversion of an [int] to a [byte] keeps the low 8 bits. *)
Definition byte_of_int (n : nat) : byte :=
  match Byte.of_nat (n mod 256)%nat with
  | Some b => b
  | None => x00
  end.

(** The built-in [copy(dst, src)]: copies [min(len(dst), len(src))]
    elements and leaves the rest of [dst] as it is. *)
Definition copy (dst src : list byte) : list byte :=
  let k := (length dst `min` length src)%nat in
  take k src ++ drop k dst.

(** [copy(a[off:], src)] seen from the array [a] that the slice aliases. *)
Definition copy_at (off : nat) (a src : list byte) : list byte :=
  take off a ++ copy (drop off a) src.

(** [bytes.HasSuffix(p, []byte{'\n'})]. *)
Definition newline : byte := x0a.

Definition hasNewlineSuffix (p : list byte) : bool :=
  match last p with
  | Some b => Byte.eqb b newline
  | None => false
  end.

(** ** Errors *)

(** Errors of the operating system ([os.Open], [Readdirnames], [ReadAt]
    other than [io.EOF]), kept abstract as their message. *)
Definition oserror := string.

(** [type address [64]byte]: byte 0 holds the length, bytes 1.. the text. *)
Definition address := list byte.

Inductive error : Type :=
  | AddressTooLong                       (* errors.New("address too long") *)
  | ReadAttribute (cause : oserror)      (* "read attribute [name]: %w" *)
  | ReadAttributeTooLong                 (* "read attribute [name]: address too long" *)
  | OsError (cause : oserror)            (* an error of os.Open returned as it is *)
  | ListDevices (prefix : string) (cause : oserror)  (* "list %s devices: %w" *)
  | NotFound                             (* "not found" *)
  | FindDevice (addr : address) (cause : error).     (* "find device %q: ..." *)

(** ** The address codec *)

Definition addressLen : nat := 64.

(** The zero value of the array type. *)
Definition zeroAddress : address := replicate addressLen x00.

(** [a == b] on arrays compares all the elements. *)
Fixpoint address_eqb (a b : address) : bool :=
  match a, b with
  | [], [] => true
  | x :: a', y :: b' => Byte.eqb x y && address_eqb a' b'
  | _, _ => false
  end.

Definition newAddress (s : string) : address + error :=
  let a := zeroAddress in
  if (length a - 1 <? String.length s)%nat then inr AddressTooLong
  else
    let a := <[0%nat := byte_of_int (String.length s)]> a in
    let a := copy_at 1 a (list_byte_of_string s) in
    inl a.

(** [a.String()] is [string(a[1 : a[0]+1])].  The bound [a[0]+1] is
    computed on bytes, so it wraps at 256; slicing the array panics when
    the bounds are not [1 <= hi <= 64].  [None] stands for that panic. *)
Definition address_String (a : address) : option string :=
  let hi := ((Byte.to_nat (default x00 (a !! 0%nat)) + 1) mod 256)%nat in
  if ((1 <=? hi) && (hi <=? length a))%nat
  then Some (string_of_list_byte (take (hi - 1) (drop 1 a)))
  else None.

(** ** Attribute files *)

(** What [ReadAt] on an opened attribute file does: it delivers the
    content of the file (with [io.EOF] when the buffer is not filled), or
    fails with an error that is not [io.EOF]. *)
Inductive file : Type :=
  | FileContent (content : list byte)
  | FileFails (e : oserror).

(** [readAttrBytes(file, p)]: the buffer after the call, and the count or
    the error that is returned. *)
Definition readAttrBytes (f : file) (p : list byte) : list byte * (nat + error) :=
  match f with
  | FileFails e => (p, inr (ReadAttribute e))
  | FileContent content =>
      let n := (length p `min` length content)%nat in
      let p := take n content ++ drop n p in
      let n := if hasNewlineSuffix (take n p) then (n - 1)%nat else n in
      (p, inl n)
  end.

(** The loop [for i := n + 1; i < len(a); i++ { a[i] = 0 }]. *)
Definition zeroTail (n : nat) (a : list byte) : list byte :=
  foldl (fun a i => <[i := x00]> a) a (seq (n + 1) (length a - (n + 1))).

Definition readAttrAddr (f : file) : address + error :=
  let a := zeroAddress in
  match readAttrBytes f a with
  | (_, inr e) => inr e
  | (a, inl n) =>
      if (length a - 1 <? n)%nat then inr ReadAttributeTooLong
      else
        let a := copy_at 1 a (take n a) in
        let a := <[0%nat := byte_of_int n]> a in
        let a := zeroTail n a in
        inl a
  end.

(** The "newline-stripped content" of an attribute, in the words of the
    specification: the content of the file without one trailing newline. *)
Definition stripNewline (content : list byte) : list byte :=
  if hasNewlineSuffix content then take (length content - 1) content else content.

(** ** Device names *)

Record deviceName : Type := mkDeviceName { dn_name : string; dn_n : Z }.

(** The zero value [deviceName{}]. *)
Definition zeroDeviceName : deviceName := mkDeviceName EmptyString 0.

(** [dn == (deviceName{})]: equality of structs, field by field. *)
Definition deviceName_eqb (a b : deviceName) : bool :=
  String.eqb (dn_name a) (dn_name b) && (dn_n a =? dn_n b).

(** [s[n:]] for [n <= len(s)]. *)
Fixpoint string_drop (n : nat) (s : string) : string :=
  match n, s with
  | O, _ => s
  | S n', String _ s' => string_drop n' s'
  | S _, EmptyString => EmptyString
  end.

(** The value of a decimal digit ([ch -= '0'; ch > 9] is an error). *)
Definition digitValue (c : ascii) : option Z :=
  let k := Z.of_nat (nat_of_ascii c) in
  if (48 <=? k) && (k <=? 57) then Some (k - 48) else None.

Fixpoint parseDigits (s : string) (acc : Z) : option Z :=
  match s with
  | EmptyString => Some acc
  | String c s' =>
      match digitValue c with
      | Some v => parseDigits s' (acc * 10 + v)
      | None => None
      end
  end.

(** [filepath.Join(dir, name)] for a cleaned directory path and the name
    of one of its entries. *)
Definition filepath_Join (dir name : string) : string :=
  (dir ++ "/" ++ name)%string.

(** [sort.Slice(deviceNames, less)] with [less] comparing the numbers.
    The order that [sort.Slice] gives to entries with equal numbers is not
    specified; here they keep the order of the directory. *)
Fixpoint insertByN (x : deviceName) (l : list deviceName) : list deviceName :=
  match l with
  | [] => [x]
  | y :: l' => if dn_n x <=? dn_n y then x :: l else y :: insertByN x l'
  end.

Definition sortSlice (l : list deviceName) : list deviceName :=
  foldr insertByN [] l.

(** ** The class directory as the scanner sees it *)

(** One snapshot of the directory [d.path]: what [os.Open] followed by
    [Readdirnames(-1)] gives, and what opening the [address] attribute of
    an entry gives. *)
Record sysfs : Type := mkSysfs {
  readdirnames : list string + oserror;
  openAddress : string -> file + oserror
}.

(** ** The scanner *)

Record skipEntry : Type := mkSkipEntry { se_i : Z; se_addr : address }.

Record deviceDir : Type := mkDeviceDir {
  d_path : string;
  d_prefix : string;
  (* The highest scanned device number or -1. *)
  d_n : Z;
  (* Set of previously scanned devices. *)
  d_skipped : list skipEntry
}.

Definition newDeviceDir (path prefix : string) : deviceDir :=
  mkDeviceDir path prefix (-1) [].

(** How the run of a function ends: it returns, it panics on an index
    out of range, or (in this model only) a loop does not end within the
    number of rounds it is given. *)
Inductive exec (A : Type) : Type :=
  | Ret (a : A)
  | IndexOutOfRange
  | Unfinished.
Arguments Ret {A} a.
Arguments IndexOutOfRange {A}.
Arguments Unfinished {A}.

(** A read of an [address] attribute: the entry, and the address when
    [readAttrAddr] succeeded. *)
Definition readEvent : Type := deviceName * option address.

(** What a call of [findByAddress] leaves: the returned pair, the
    scanner afterwards, and the attribute reads it made, in order. *)
Record callResult : Type := mkCallResult {
  res : exec (string + error);
  st : deviceDir;
  reads : list readEvent
}.

(** The loop
    [for skipIndex < len(d.skipped) && d.skipped[skipIndex].i < dn.n { skipIndex++ }]. *)
Fixpoint advanceSkipIndex (fuel : nat) (skipped : list skipEntry)
    (skipIndex : nat) (n : Z) : exec nat :=
  if (skipIndex <? length skipped)%nat then
    match skipped !! skipIndex with
    | None => IndexOutOfRange
    | Some e =>
        if se_i e <? n then
          match fuel with
          | O => Unfinished
          | S fuel' => advanceSkipIndex fuel' skipped (S skipIndex) n
          end
        else Ret skipIndex
    end
  else Ret skipIndex.

(** The test [skipIndex < len(d.skipped) && d.skipped[skipIndex].i == dn.n],
    with the entry when it holds. *)
Definition skipListEntry (skipped : list skipEntry) (skipIndex : nat) (n : Z)
    : exec (option skipEntry) :=
  if (skipIndex <? length skipped)%nat then
    match skipped !! skipIndex with
    | None => IndexOutOfRange
    | Some e => if se_i e =? n then Ret (Some e) else Ret None
    end
  else Ret None.

(** [append(s[:i], s[i+1:]...)]; slicing panics when [i+1 > len(s)]. *)
Definition removeAt (s : list skipEntry) (i : nat) : exec (list skipEntry) :=
  if (i + 1 <=? length s)%nat then Ret (take i s ++ drop (i + 1) s)
  else IndexOutOfRange.

Definition set_n (d : deviceDir) (n : Z) : deviceDir :=
  mkDeviceDir (d_path d) (d_prefix d) n (d_skipped d).

Definition set_skipped (d : deviceDir) (s : list skipEntry) : deviceDir :=
  mkDeviceDir (d_path d) (d_prefix d) (d_n d) s.

(** The body of [findByAddress] after the listing: the loop over
    [deviceNames] and the final "not found". *)
Fixpoint walk (fs : sysfs) (addr : address) (deviceNames : list deviceName)
    (d : deviceDir) (skipIndex : nat) (log : list readEvent) : callResult :=
  match deviceNames with
  | [] => mkCallResult (Ret (inr (FindDevice addr NotFound))) d log
  | dn :: rest =>
      match advanceSkipIndex (length (d_skipped d)) (d_skipped d) skipIndex (dn_n dn) with
      | IndexOutOfRange => mkCallResult IndexOutOfRange d log
      | Unfinished => mkCallResult Unfinished d log
      | Ret skipIndex =>
          match skipListEntry (d_skipped d) skipIndex (dn_n dn) with
          | IndexOutOfRange => mkCallResult IndexOutOfRange d log
          | Unfinished => mkCallResult Unfinished d log
          | Ret (Some e) =>
              if negb (address_eqb (se_addr e) addr) then
                walk fs addr rest d skipIndex log
              else
                match removeAt (d_skipped d) skipIndex with
                | Ret s =>
                    mkCallResult (Ret (inl (filepath_Join (d_path d) (dn_name dn))))
                      (set_skipped d s) log
                | IndexOutOfRange => mkCallResult IndexOutOfRange d log
                | Unfinished => mkCallResult Unfinished d log
                end
          | Ret None =>
              (* Ignore device if number is below high-water mark and not
                 in skip list. *)
              if (0 <=? d_n d) && (dn_n dn <=? d_n d) then
                walk fs addr rest d skipIndex log
              else
                (* Read device address. *)
                match openAddress fs (dn_name dn) with
                | inr err => mkCallResult (Ret (inr (FindDevice addr (OsError err)))) d log
                | inl addrFile =>
                    match readAttrAddr addrFile with
                    | inr err =>
                        mkCallResult (Ret (inr (FindDevice addr err))) d
                          (log ++ [(dn, None)])
                    | inl devAddr =>
                        let d := set_n d (dn_n dn) in
                        let log := log ++ [(dn, Some devAddr)] in
                        if address_eqb devAddr addr then
                          mkCallResult (Ret (inl (filepath_Join (d_path d) (dn_name dn)))) d log
                        else
                          walk fs addr rest
                            (set_skipped d (d_skipped d ++ [mkSkipEntry (dn_n dn) devAddr]))
                            skipIndex log
                    end
                end
          end
      end
  end.

Section Platform.

(** The size of [int] in bits ([strconv.IntSize]): 32 on the EV3, 64 on a
    development machine. *)
Variable intSize : Z.

(** [strconv.Atoi(s)], which is [ParseInt(s, 10, 0)]: an optional sign,
    then one or more decimal digits, and a value that fits in [int].
    [None] stands for its syntax and range errors. *)
Definition Atoi (s : string) : option Z :=
  let '(neg, body) :=
    match s with
    | String "-" rest => (true, rest)
    | String "+" rest => (false, rest)
    | _ => (false, s)
    end in
  match body with
  | EmptyString => None
  | _ =>
      match parseDigits body 0 with
      | None => None
      | Some v =>
          let v := if neg : bool then - v else v in
          if (- 2 ^ (intSize - 1) <=? v) && (v <? 2 ^ (intSize - 1))
          then Some v else None
      end
  end.

Definition parseDeviceName (name prefix : string) : deviceName :=
  if negb (String.prefix prefix name) then zeroDeviceName
  else
    match Atoi (string_drop (String.length prefix) name) with
    | None => zeroDeviceName
    | Some n => mkDeviceName name n
    end.

(** [d.list()]. *)
Definition list_devices (d : deviceDir) (fs : sysfs) : list deviceName + error :=
  match readdirnames fs with
  | inr err => inr (ListDevices (d_prefix d) err)
  | inl names =>
      let deviceNames :=
        filter (fun dn => negb (deviceName_eqb dn zeroDeviceName) = true)
          (map (fun name => parseDeviceName name (d_prefix d)) names) in
      inl (sortSlice deviceNames)
  end.

(** [d.findByAddress(addr)]. *)
Definition findByAddress (d : deviceDir) (fs : sysfs) (addr : address) : callResult :=
  match list_devices d fs with
  | inr err => mkCallResult (Ret (inr (FindDevice addr err))) d []
  | inl deviceNames => walk fs addr deviceNames d 0 []
  end.

(** A sequence of calls on one scanner, each with the directory as it is
    at that time. *)
Fixpoint resolveAll (d : deviceDir) (calls : list (sysfs * address)) : list callResult :=
  match calls with
  | [] => []
  | (fs, addr) :: calls' =>
      let r := findByAddress d fs addr in
      r :: resolveAll (st r) calls'
  end.

End Platform.


(** ** Integer attributes *)

(** [strconv.ParseInt(s, 10, bitSize)] for a bit size from 1 to 64: as
    [Atoi], with the range of [bitSize] bits.  [None] stands for its
    errors. *)
Definition ParseInt (s : string) (bitSize : Z) : option Z := Atoi bitSize s.

(** The decimal digit of a number from 0 to 9. *)
Definition digitChar (n : Z) : ascii := ascii_of_nat (Z.to_nat (48 + n)).

(** The decimal digits of a number from 0 on, put in front of [acc]; a
    number below [10 ^ fuel] is written in full. *)
Fixpoint formatUint (fuel : nat) (n : Z) (acc : string) : string :=
  match fuel with
  | O => acc
  | S fuel' =>
      let acc := String (digitChar (n mod 10)) acc in
      if n <? 10 then acc else formatUint fuel' (n / 10) acc
  end.

(** [strconv.FormatInt(value, 10)] for an [int64], which is also what
    [strconv.AppendInt(dst, value, 10)] appends: the digits, after a minus
    sign for a negative number. *)
Definition FormatInt (value : Z) : string :=
  if value <? 0 then String "-" (formatUint 20 (- value) EmptyString)
  else formatUint 20 value EmptyString.

(** The errors of [readAttrInt]: the one of [readAttrBytes], or the one
    of [ParseInt] in "read attribute [name]: %w". *)
Inductive intError : Type :=
  | IntRead (e : error)
  | IntParse.

(** [readAttrInt(file, bits)]. *)
Definition readAttrInt (f : file) (bits : Z) : Z + intError :=
  let buf := replicate 24 x00 in
  match readAttrBytes f buf with
  | (_, inr err) => inr (IntRead err)
  | (buf, inl n) =>
      match ParseInt (string_of_list_byte (take n buf)) bits with
      | None => inr IntParse
      | Some i => inl i
      end
  end.

(** The content of an integer attribute as the kernel shows it. *)
Definition intAttr (value : Z) : list byte :=
  list_byte_of_string (FormatInt value) ++ [newline].

(** ** Package [fixedpoint] *)

(** Conversion to [int32], [int16] and [uint16]: the low bits of the
    number, signed or not. *)
Definition wrap32 (z : Z) : Z := (z + 2 ^ 31) mod 2 ^ 32 - 2 ^ 31.

Definition wrap16 (z : Z) : Z := (z + 2 ^ 15) mod 2 ^ 16 - 2 ^ 15.

Definition wrap16u (z : Z) : Z := z mod 2 ^ 16.

Module fixedpoint.

(** [type Value struct { value int32; decimals uint16 }]. *)
Record Value : Type := mkValue { value : Z; decimals : Z }.

(** The values of the type: the fields are in the range of their types. *)
Definition wf (fp : Value) : Prop :=
  - 2 ^ 31 <= value fp < 2 ^ 31 /\ 0 <= decimals fp < 2 ^ 16.

Definition FromInt (i : Z) : Value := mkValue i 0.

(** [Int]: the loop divides [decimals] times by ten; [/] on [int]
    truncates toward zero. *)
Definition Int (fp : Value) : Z :=
  foldl (fun v _ => Z.quot v 10) (value fp) (seq 0 (Z.to_nat (decimals fp))).

(** One round of a loop of [normalize]: [fp.value *= 10; fp.decimals++]. *)
Definition bump (fp : Value) : Value :=
  mkValue (wrap32 (value fp * 10)) (wrap16u (decimals fp + 1)).

(** A loop of [normalize], [for target > fp.decimals { ... }]. *)
Fixpoint raise (fuel : nat) (target : Z) (fp : Value) : exec Value :=
  if target >? decimals fp then
    match fuel with
    | O => Unfinished
    | S fuel' => raise fuel' target (bump fp)
    end
  else Ret fp.

Definition rounds : nat := Z.to_nat (2 ^ 16).

Definition normalize (fp1 fp2 : Value) : exec (Value * Value) :=
  match raise rounds (decimals fp1) fp2 with
  | Ret fp2 =>
      match raise rounds (decimals fp2) fp1 with
      | Ret fp1 => Ret (fp1, fp2)
      | IndexOutOfRange => IndexOutOfRange
      | Unfinished => Unfinished
      end
  | IndexOutOfRange => IndexOutOfRange
  | Unfinished => Unfinished
  end.

(** The functions that start with [fp, fp2 = normalize(fp, fp2)]. *)
Definition normalized {A : Type} (f : Value -> Value -> A) (fp fp2 : Value) : exec A :=
  match normalize fp fp2 with
  | Ret (fp, fp2) => Ret (f fp fp2)
  | IndexOutOfRange => IndexOutOfRange
  | Unfinished => Unfinished
  end.

Definition Add : Value -> Value -> exec Value :=
  normalized (fun fp fp2 => mkValue (wrap32 (value fp + value fp2)) (decimals fp)).

Definition Sub : Value -> Value -> exec Value :=
  normalized (fun fp fp2 => mkValue (wrap32 (value fp - value fp2)) (decimals fp)).

Definition Equal : Value -> Value -> exec bool :=
  normalized (fun fp fp2 => value fp =? value fp2).

Definition Less : Value -> Value -> exec bool :=
  normalized (fun fp fp2 => value fp <? value fp2).

Definition Neg (fp : Value) : Value :=
  mkValue (wrap32 (- value fp)) (decimals fp).

(** [Shift10(n int16)]; [uint16(n)] keeps the low 16 bits of [n]. *)
Definition Shift10 (fp : Value) (n : Z) : Value :=
  if n <? 0 then mkValue (value fp) (wrap16u (decimals fp - wrap16u n))
  else mkValue (value fp) (wrap16u (decimals fp + wrap16u n)).

(** A value brought to [d] decimals by the rounds of [normalize]. *)
Definition scaled (fp : Value) (d : Z) : Value :=
  if d >? decimals fp then mkValue (wrap32 (value fp * 10 ^ (d - decimals fp))) d
  else fp.

End fixedpoint.

(** ** Positions of a tacho motor *)

(** [TachoPosition] and [TachoDelta] are [int32]. *)
Definition TachoPosition_Add (pos delta : Z) : Z := wrap32 (pos + delta).

Definition TachoPosition_Sub (pos pos2 : Z) : Z := wrap32 (pos - pos2).

(** ** Sensors *)

(** The files that [os.Open] can open for reading: whether the file at a
    path opens, and what a [ReadAt] of the file opened there gives at
    present.  An open file is named by its path. *)
Record filesys : Type := mkFilesys {
  os_Open : string -> option oserror;
  at_path : string -> file
}.

Definition handle : Type := string.

(** [type Sensor struct { decimals int16; values [8]*os.File }]; [None]
    is the nil pointer. *)
Record Sensor : Type := mkSensor {
  s_decimals : Z;
  s_values : list (option handle)
}.

Inductive sensorError : Type :=
  | SensorOpen (err : oserror)         (* an error of os.Open *)
  | SensorRead (err : intError)        (* an error of readAttrInt *)
  | SensorValues (nvalues : Z).        (* "sensor has %d values" *)

(** [fmt.Sprintf("value%d", i)]. *)
Definition valueName (i : nat) : string :=
  ("value" ++ FormatInt (Z.of_nat i))%string.

(** The loop of [newSensor] that opens the value files, over the indices
    that are left. *)
Fixpoint openValues (fs : filesys) (path : string) (indices : list nat)
    (values : list (option handle)) : list (option handle) + oserror :=
  match indices with
  | [] => inl values
  | i :: indices' =>
      let name := filepath_Join path (valueName i) in
      match os_Open fs name with
      | Some err => inr err
      | None => openValues fs path indices' (<[i := Some name]> values)
      end
  end.

Definition newSensor (fs : filesys) (path : string) : Sensor + sensorError :=
  match os_Open fs (filepath_Join path "decimals") with
  | Some err => inr (SensorOpen err)
  | None =>
      match readAttrInt (at_path fs (filepath_Join path "decimals")) 16 with
      | inr err => inr (SensorRead err)
      | inl decimals =>
          match os_Open fs (filepath_Join path "num_values") with
          | Some err => inr (SensorOpen err)
          | None =>
              match readAttrInt (at_path fs (filepath_Join path "num_values")) 8 with
              | inr err => inr (SensorRead err)
              | inl nvalues =>
                  if (nvalues <? 1) || (nvalues >? 8) then inr (SensorValues nvalues)
                  else
                    match openValues fs path (seq 0 (Z.to_nat nvalues))
                            (replicate 8 None) with
                    | inr err => inr (SensorOpen err)
                    | inl values => inl (mkSensor (wrap16 decimals) values)
                    end
              end
          end
      end
  end.

(** [NValues]: the index of the first nil pointer, or the length. *)
Fixpoint firstNil (values : list (option handle)) (i : nat) : nat :=
  match values with
  | [] => i
  | None :: _ => i
  | Some _ :: values' => firstNil values' (S i)
  end.

Definition NValues (s : Sensor) : nat := firstNil (s_values s) 0.

Inductive valueError : Type :=
  | NoSuchValue (i : Z)                      (* "read sensor value %d: no such value" *)
  | ReadValue (i : Z) (err : intError).      (* "read sensor value %d: %w" *)

(** [s.Value(i)], with the files as they read at the time of the call. *)
Definition Sensor_Value (readAt : handle -> file) (s : Sensor) (i : Z)
    : exec (fixedpoint.Value + valueError) :=
  if (i <? 0) || (i >=? Z.of_nat (length (s_values s))) then Ret (inr (NoSuchValue i))
  else
    match s_values s !! Z.to_nat i with
    | None => IndexOutOfRange
    | Some None => Ret (inr (NoSuchValue i))
    | Some (Some f) =>
        match readAttrInt (readAt f) 32 with
        | inr err => Ret (inr (ReadValue i err))
        | inl v =>
            Ret (inl (fixedpoint.Shift10 (fixedpoint.FromInt (wrap32 v))
                        (wrap16 (- s_decimals s))))
        end
    end.

(** The value files of a sensor with [k] values. *)
Definition valueFiles (path : string) (k : nat) : list (option handle) :=
  map (fun i => Some (filepath_Join path (valueName i))) (seq 0 k)
  ++ replicate (8 - k) None.

(** The files of a sensor at [sensor0_path] with one decimal and two
    values, 12.3 and -0.7. *)
Definition sensor0_path : string := "/sys/class/lego-sensor/sensor0"%string.

Definition filesOf (entries : list (string * list byte)) : filesys :=
  mkFilesys
    (fun path =>
       match List.find (fun e => String.eqb (fst e) path) entries with
       | Some _ => None
       | None => Some "no such file or directory"%string
       end)
    (fun path =>
       match List.find (fun e => String.eqb (fst e) path) entries with
       | Some e => FileContent (snd e)
       | None => FileFails "bad file descriptor"%string
       end).

Definition sensor0_files : filesys :=
  filesOf [(filepath_Join sensor0_path "decimals", intAttr 1);
           (filepath_Join sensor0_path "num_values", intAttr 2);
           (filepath_Join sensor0_path "value0", intAttr 123);
           (filepath_Join sensor0_path "value1", intAttr (-7))].

Definition sensor0 : Sensor :=
  mkSensor 1 (valueFiles sensor0_path 2).

(** ** The brick and its ports *)

Record devices : Type := mkDevices {
  dev_tachoMotors : deviceDir;
  dev_sensors : deviceDir
}.

(** [type Brick struct { ports deviceDir; devices *devices }].  The
    [devices] that the ports point to are those of the brick. *)
Record Brick : Type := mkBrick {
  brick_ports : deviceDir;
  brick_devices : devices
}.

Record Port : Type := mkPort {
  port_path : string;
  port_addr : address
}.

(** "find port %q: %w". *)
Inductive portError : Type :=
  | FindPort (addr : string) (cause : error).

(** [brick.PortByAddress(addr)], with the directory of the ports as it
    is at the time of the call: the returned pair and the brick
    afterwards. *)
Definition PortByAddress (intSize : Z) (brick : Brick) (fs : sysfs) (addr : string)
    : exec (Port + portError) * Brick :=
  match newAddress addr with
  | inr err => (Ret (inr (FindPort addr err)), brick)
  | inl a =>
      let r := findByAddress intSize (brick_ports brick) fs a in
      let brick := mkBrick (st r) (brick_devices brick) in
      match res r with
      | Ret (inl path) => (Ret (inl (mkPort path a)), brick)
      | Ret (inr err) => (Ret (inr (FindPort addr err)), brick)
      | IndexOutOfRange => (IndexOutOfRange, brick)
      | Unfinished => (Unfinished, brick)
      end
  end.

(** [p.Addr()]. *)
Definition Port_Addr (p : Port) : option string := address_String (port_addr p).

(** The addresses that the program makes: those of [newAddress] and
    those of [readAttrAddr]. *)
Definition produced (a : address) : Prop :=
  (exists t, newAddress t = inl a) \/ (exists f, readAttrAddr f = inl a).

(** ** Auxiliary definitions for the statements *)

(** The array that holds the text [c] of [n] bytes. *)
Definition encoded (n : nat) (c : list byte) : address :=
  byte_of_int n :: c ++ replicate (63 - n) x00.

(** A text that ends with a newline, the 63 bytes ["aaa...a"], and an
    attribute content that has a newline as its 64th byte and goes on. *)
Definition text_port : string := "spi0.1:S3"%string.

Definition text_newline : string := String (ascii_of_nat 10) EmptyString.

Definition text63 : list byte := replicate 63 "a"%byte.

Definition content_newline_at_64 : list byte := text63 ++ [newline; "b"%byte].

(** One round of the loop of [findByAddress] for the entry [dn], once the
    skip index stands at [i]; [k] is the rest of the loop.  [freshRound] is
    the part after the test of the skip list. *)
Definition freshRound (fs : sysfs) (addr : address)
    (k : deviceDir -> list readEvent -> callResult)
    (dn : deviceName) (d : deviceDir) (log : list readEvent) : callResult :=
  if (0 <=? d_n d) && (dn_n dn <=? d_n d) then k d log
  else
    match openAddress fs (dn_name dn) with
    | inr err => mkCallResult (Ret (inr (FindDevice addr (OsError err)))) d log
    | inl addrFile =>
        match readAttrAddr addrFile with
        | inr err =>
            mkCallResult (Ret (inr (FindDevice addr err))) d (log ++ [(dn, None)])
        | inl devAddr =>
            let d := set_n d (dn_n dn) in
            let log := log ++ [(dn, Some devAddr)] in
            if address_eqb devAddr addr then
              mkCallResult (Ret (inl (filepath_Join (d_path d) (dn_name dn)))) d log
            else
              k (set_skipped d (d_skipped d ++ [mkSkipEntry (dn_n dn) devAddr])) log
        end
    end.

Definition roundAt (fs : sysfs) (addr : address)
    (k : deviceDir -> nat -> list readEvent -> callResult)
    (dn : deviceName) (d : deviceDir) (i : nat) (log : list readEvent) : callResult :=
  match d_skipped d !! i with
  | Some e =>
      if se_i e =? dn_n dn then
        if negb (address_eqb (se_addr e) addr) then k d i log
        else
          mkCallResult (Ret (inl (filepath_Join (d_path d) (dn_name dn))))
            (set_skipped d (delete i (d_skipped d))) log
      else freshRound fs addr (fun d log => k d i log) dn d log
  | None => freshRound fs addr (fun d log => k d i log) dn d log
  end.

(** The runs of the loop as a relation: [walks fs addr l d log r] when the
    loop over [l], started with the scanner [d] and the reads [log], can
    end with [r].  The relation forgets the skip index: a round may use
    any entry of the skip list that carries the number of [dn]. *)
Inductive walks (fs : sysfs) (addr : address) :
    list deviceName -> deviceDir -> list readEvent -> callResult -> Prop :=
  | W_nil d log :
      walks fs addr [] d log (mkCallResult (Ret (inr (FindDevice addr NotFound))) d log)
  | W_skip_other dn rest d log r i e :
      d_skipped d !! i = Some e -> se_i e = dn_n dn ->
      address_eqb (se_addr e) addr = false ->
      walks fs addr rest d log r ->
      walks fs addr (dn :: rest) d log r
  | W_skip_hit dn rest d log i e :
      d_skipped d !! i = Some e -> se_i e = dn_n dn ->
      address_eqb (se_addr e) addr = true ->
      walks fs addr (dn :: rest) d log
        (mkCallResult (Ret (inl (filepath_Join (d_path d) (dn_name dn))))
           (set_skipped d (delete i (d_skipped d))) log)
  | W_ignore dn rest d log r :
      0 <= d_n d -> dn_n dn <= d_n d ->
      walks fs addr rest d log r ->
      walks fs addr (dn :: rest) d log r
  | W_open_fails dn rest d log err :
      ~ (0 <= d_n d /\ dn_n dn <= d_n d) ->
      openAddress fs (dn_name dn) = inr err ->
      walks fs addr (dn :: rest) d log
        (mkCallResult (Ret (inr (FindDevice addr (OsError err)))) d log)
  | W_read_fails dn rest d log addrFile err :
      ~ (0 <= d_n d /\ dn_n dn <= d_n d) ->
      openAddress fs (dn_name dn) = inl addrFile ->
      readAttrAddr addrFile = inr err ->
      walks fs addr (dn :: rest) d log
        (mkCallResult (Ret (inr (FindDevice addr err))) d (log ++ [(dn, None)]))
  | W_read_hit dn rest d log addrFile devAddr :
      ~ (0 <= d_n d /\ dn_n dn <= d_n d) ->
      openAddress fs (dn_name dn) = inl addrFile ->
      readAttrAddr addrFile = inl devAddr ->
      address_eqb devAddr addr = true ->
      walks fs addr (dn :: rest) d log
        (mkCallResult (Ret (inl (filepath_Join (d_path d) (dn_name dn))))
           (set_n d (dn_n dn)) (log ++ [(dn, Some devAddr)]))
  | W_read_skip dn rest d log r addrFile devAddr :
      ~ (0 <= d_n d /\ dn_n dn <= d_n d) ->
      openAddress fs (dn_name dn) = inl addrFile ->
      readAttrAddr addrFile = inl devAddr ->
      address_eqb devAddr addr = false ->
      walks fs addr rest
        (set_skipped (set_n d (dn_n dn)) (d_skipped d ++ [mkSkipEntry (dn_n dn) devAddr]))
        (log ++ [(dn, Some devAddr)]) r ->
      walks fs addr (dn :: rest) d log r.

(** The entries that a list of reads adds to the skip list when none of
    them is the requested address, and the high-water mark after them. *)
Definition appended (evs : list readEvent) : list skipEntry :=
  omap (fun ev : readEvent => mkSkipEntry (dn_n (fst ev)) <$> snd ev) evs.

Definition markAfter (ev : readEvent) (n : Z) : Z :=
  match snd ev with
  | Some _ => dn_n (fst ev)
  | None => n
  end.

Definition lastRead (evs : list readEvent) (n : Z) : Z :=
  foldl (fun n ev => markAfter ev n) n evs.

(** Every read of [evs] is made beyond the high-water mark of its time,
    the mark being [n] at first and the number of the entry after each
    read that succeeds. *)
Fixpoint gated (n : Z) (evs : list readEvent) : Prop :=
  match evs with
  | [] => True
  | ev :: evs' =>
      ~ (0 <= n /\ dn_n (fst ev) <= n) /\ gated (markAfter ev n) evs'
  end.

(** The skip list as far as numbers from 0 on go: such an entry is at
    most the high-water mark and greater than every entry before it. *)
Definition skipOK (d : deviceDir) : Prop :=
  forall (j : nat) (e : skipEntry),
    d_skipped d !! j = Some e -> 0 <= se_i e ->
    se_i e <= d_n d
    /\ forall (j' : nat) (e' : skipEntry),
         (j' < j)%nat -> d_skipped d !! j' = Some e' -> se_i e' < se_i e.

(** The words of the specification for the names that are listed: "the
    configured prefix immediately followed by digits". *)
Fixpoint allDigits (s : string) : bool :=
  match s with
  | EmptyString => true
  | String c s' =>
      match digitValue c with
      | Some _ => allDigits s'
      | None => false
      end
  end.

Definition prefixThenDigits (prefix name : string) : bool :=
  String.prefix prefix name
  && negb (String.eqb (string_drop (String.length prefix) name) EmptyString)
  && allDigits (string_drop (String.length prefix) name).

(** A suffix that is not a number: it is empty, or one of its characters
    is not a digit, a sign in front apart. *)
Definition nonNumeric (suffix : string) : Prop :=
  suffix = EmptyString
  \/ exists (s1 : string) (c : ascii) (s2 : string),
       suffix = (s1 ++ String c s2)%string
       /\ digitValue c = None
       /\ (s1 = EmptyString -> c <> "-"%char /\ c <> "+"%char).

(** The order of the listing. *)
Definition byNumber (a b : deviceName) : Prop := dn_n a <= dn_n b.

(** An entry of the directory is listed. *)
Definition listed (intSize : Z) (d : deviceDir) (fs : sysfs) (name : string) : Prop :=
  exists l dn, list_devices intSize d fs = inl l /\ dn ∈ l /\ dn_name dn = name.

(** The call returns the path of an entry whose number is [N]. *)
Definition returnsSlot (intSize : Z) (d : deviceDir) (r : callResult) (N : Z) : Prop :=
  exists name,
    res r = Ret (inl (filepath_Join (d_path d) name))
    /\ parseDeviceName intSize name (d_prefix d) = mkDeviceName name N.

(** A directory given by its entries and the content of their [address]
    attributes. *)
Definition lookupFile (entries : list (string * list byte)) (name : string)
    : file + oserror :=
  match List.find (fun e => String.eqb (fst e) name) entries with
  | Some e => inl (FileContent (snd e))
  | None => inr "no such file or directory"%string
  end.

Definition mkDir (entries : list (string * list byte)) : sysfs :=
  mkSysfs (inl (map fst entries)) (lookupFile entries).

(** The address of a text, and the content of an attribute that holds it. *)
Definition addressOf (s : string) : address :=
  match newAddress s with
  | inl a => a
  | inr _ => zeroAddress
  end.

Definition attr (s : string) : list byte := list_byte_of_string s ++ [newline].

(** All the reads of a sequence of calls, in order. *)
Definition allReads (rs : list callResult) : list readEvent :=
  concat (map reads rs).

(** The scanner after a sequence of calls. *)
Definition stateAfter (intSize : Z) (d : deviceDir) (calls : list (sysfs * address))
    : deviceDir :=
  foldl (fun d call => st (findByAddress intSize d (fst call) (snd call))) d calls.

(** ** Directories and scanners of the scenarios *)

Definition sensors : deviceDir :=
  newDeviceDir "/sys/class/lego-sensor" "sensor".

Definition S1 : address := addressOf "iface:S1".
Definition S2 : address := addressOf "iface:S2".
Definition S3 : address := addressOf "iface:S3".

Definition dir_three : sysfs :=
  mkDir [("sensor0"%string, attr "iface:S3"); ("sensor1"%string, attr "iface:S1");
         ("sensor2"%string, attr "iface:S2")].

(** [dir_three] after [sensor0] has been deleted. *)
Definition dir_without0 : sysfs :=
  mkDir [("sensor1"%string, attr "iface:S1"); ("sensor2"%string, attr "iface:S2")].

(** A device whose [address] attribute holds 64 bytes and no newline. *)
Definition dir_too_long : sysfs :=
  mkDir [("sensor0"%string, replicate 64 "a"%byte)].

(** The scanner after [iface:S1] has been resolved in [dir_three]. *)
Definition sensors_after_S1 : deviceDir :=
  st (findByAddress 64 sensors dir_three S1).

(** One device at slot 0, and the directory after it has been deleted
    and another device has taken the slot. *)
Definition dir_old : sysfs := mkDir [("sensor0"%string, attr "iface:S3")].

Definition dir_reused : sysfs := mkDir [("sensor0"%string, attr "iface:S2")].

(** The scanner after [iface:S1] was not found in [dir_old]. *)
Definition sensors_after_miss : deviceDir :=
  st (findByAddress 64 sensors dir_old S1).

(** Entries whose names end in a negative number. *)
Definition dir_minus5 : sysfs := mkDir [("sensor-5"%string, attr "iface:S1")].

Definition dir_minus5_S3 : sysfs := mkDir [("sensor-5"%string, attr "iface:S3")].

Definition dir_minus7_minus5 : sysfs :=
  mkDir [("sensor-7"%string, attr "iface:S2"); ("sensor-5"%string, attr "iface:S3")].

(** Two devices with the same address. *)
Definition dir_twins : sysfs :=
  mkDir [("sensor0"%string, attr "iface:S3"); ("sensor1"%string, attr "iface:S3")].

(** Entries that are not devices of the class, an entry whose digits do
    not fit in [int], and the names of the last two. *)
Definition dir_bacon : sysfs :=
  mkDir [("bacon0"%string, attr "iface:S3"); ("sensorX"%string, attr "iface:S3")].

Definition name_big : string := "sensor99999999999999999999"%string.

Definition dir_big : sysfs := mkDir [(name_big, attr "iface:S1")].

Definition name_minus5 : string := "sensor-5"%string.

(** [dir_three] after [sensor1] has been removed and the port is back as
    [sensor3]; and the directory of the test "SkipsNotMatching". *)
Definition dir_reconfigured : sysfs :=
  mkDir [("sensor0"%string, attr "iface:S3"); ("sensor2"%string, attr "iface:S2");
         ("sensor3"%string, attr "iface:S1")].

Definition dir_not_matching : sysfs :=
  mkDir [("bacon"%string, attr "iface:S3"); ("sensorX"%string, attr "iface:S3")].

(** A brick whose ports are scanned for the first time, and the class
    directory of two ports. *)
Definition brick0 : Brick :=
  mkBrick (newDeviceDir "/sys/class/lego-port" "port")
    (mkDevices (newDeviceDir "/sys/class/tacho-motor" "motor")
               (newDeviceDir "/sys/class/lego-sensor" "sensor")).

Definition dir_ports : sysfs :=
  mkDir [("port0"%string, attr "spi0.1:S1"); ("port1"%string, attr "spi0.1:S2")].

Definition port1 : Port := mkPort "/sys/class/lego-port/port1" (addressOf "spi0.1:S2").

(** The brick after a sequence of calls of [PortByAddress], each with the
    directory of the ports as it is at that time. *)
Definition callsOn (intSize : Z) (brick : Brick) (calls : list (sysfs * string)) : Brick :=
  foldl (fun b c => snd (PortByAddress intSize b (fst c) (snd c))) brick calls.

Definition text64 : string := string_of_list_byte (replicate 64 "a"%byte).

Definition text_S1 : string := "spi0.1:S1"%string.
Definition text_S2 : string := "spi0.1:S2"%string.

Definition brick1 : Brick := snd (PortByAddress 64 brick0 dir_ports text_S2).

(** The returned pairs of a sequence of calls on a new scanner for
    sensors: the path, or [None] for an error. *)
Definition pathsOf (calls : list (sysfs * address)) : list (option string) :=
  map (fun r => match res r with
                | Ret (inl p) => Some p
                | _ => None
                end)
      (resolveAll 64 sensors calls).

(** * Properties *)

Lemma byte_of_int_to_nat (n : nat) :
  (n < 256)%nat -> Byte.to_nat (byte_of_int n) = n.
Proof.
  intros Hn. unfold byte_of_int.
  rewrite Nat.mod_small by lia.
  destruct (Byte.of_nat n) as [b|] eqn:E.
  - now apply Byte.to_of_nat.
  - apply Byte.of_nat_None_iff in E. lia.
Qed.

(** ** The loop of [findByAddress], step by step *)

Section Walk.

Variables (fs : sysfs) (addr : address).

Implicit Types (d : deviceDir) (dn : deviceName) (log : list readEvent)
  (l rest : list deviceName) (e : skipEntry) (r : callResult).

Lemma advanceSkipIndex_ret (skipped : list skipEntry) (n : Z) :
  forall (fuel skipIndex : nat),
    (length skipped - skipIndex <= fuel)%nat ->
    exists i, advanceSkipIndex fuel skipped skipIndex n = Ret i
      /\ (skipIndex <= i)%nat
      /\ (forall j e, (skipIndex <= j < i)%nat -> skipped !! j = Some e -> se_i e < n)
      /\ (forall e, skipped !! i = Some e -> n <= se_i e).
Proof.
  induction fuel as [|fuel IH]; intros skipIndex Hfuel; simpl.
  - destruct (Nat.ltb_spec skipIndex (length skipped)) as [Hlt|Hge]; [lia|].
    exists skipIndex. repeat split; [lia | intros; lia |].
    intros e He. apply lookup_lt_Some in He. lia.
  - destruct (Nat.ltb_spec skipIndex (length skipped)) as [Hlt|Hge].
    + destruct (lookup_lt_is_Some_2 skipped skipIndex Hlt) as [e He]. rewrite He.
      destruct (Z.ltb_spec (se_i e) n) as [Hi|Hi].
      * destruct (IH (S skipIndex)) as (i & Hr & Hle & Hbelow & Hat); [lia|].
        exists i. repeat split; [exact Hr | lia | | exact Hat].
        intros j e' Hj He'.
        destruct (decide (j = skipIndex)) as [->|Hne].
        -- rewrite He in He'. now inversion He'; subst.
        -- apply (Hbelow j e'); [lia | exact He'].
      * exists skipIndex. repeat split; [lia | intros; lia |].
        intros e' He'. rewrite He in He'. now inversion He'; subst.
    + exists skipIndex. repeat split; [lia | intros; lia |].
      intros e He. apply lookup_lt_Some in He. lia.
Qed.

Lemma skipListEntry_ret (skipped : list skipEntry) (i : nat) (n : Z) :
  skipListEntry skipped i n
  = Ret (match skipped !! i with
         | Some e => if se_i e =? n then Some e else None
         | None => None
         end).
Proof.
  unfold skipListEntry.
  destruct (Nat.ltb_spec i (length skipped)) as [Hlt|Hge].
  - destruct (lookup_lt_is_Some_2 skipped i Hlt) as [e He]. rewrite He.
    now destruct (se_i e =? n).
  - now rewrite (lookup_ge_None_2 skipped i Hge).
Qed.

Lemma removeAt_ret (skipped : list skipEntry) (i : nat) e :
  skipped !! i = Some e -> removeAt skipped i = Ret (delete i skipped).
Proof.
  intros He. apply lookup_lt_Some in He. unfold removeAt.
  destruct (Nat.leb_spec (i + 1) (length skipped)) as [_|?]; [|lia].
  rewrite delete_take_drop. now replace (i + 1)%nat with (S i) by lia.
Qed.

Lemma walks_fresh dn rest d (i : nat) log :
  (forall d' log', walks fs addr rest d' log' (walk fs addr rest d' i log')) ->
  walks fs addr (dn :: rest) d log
    (freshRound fs addr (fun d log => walk fs addr rest d i log) dn d log).
Proof.
  intros IH. unfold freshRound.
  destruct (Z.leb_spec 0 (d_n d)) as [H0|H0];
    [destruct (Z.leb_spec (dn_n dn) (d_n d)) as [H1|H1]|]; simpl andb; cbv iota.
  1: now apply W_ignore.
  all: assert (Hgate : ~ (0 <= d_n d /\ dn_n dn <= d_n d)) by lia.
  all: destruct (openAddress fs (dn_name dn)) as [addrFile|err] eqn:Ho;
    [|now apply W_open_fails].
  all: destruct (readAttrAddr addrFile) as [devAddr|err] eqn:Hr;
    [|now apply (W_read_fails _ _ dn rest d log addrFile err)].
  all: cbv zeta; destruct (address_eqb devAddr addr) eqn:Ha.
  all: try (now apply (W_read_hit _ _ dn rest d log addrFile devAddr)).
  all: apply (W_read_skip _ _ dn rest d log _ addrFile devAddr); try assumption; apply IH.
Qed.

(** One round of the loop, with the position [i] that the skip index
    reaches. *)
Lemma walk_cons dn rest d skipIndex log :
  exists i,
    (skipIndex <= i)%nat
    /\ (forall j e, (skipIndex <= j < i)%nat -> d_skipped d !! j = Some e -> se_i e < dn_n dn)
    /\ (forall e, d_skipped d !! i = Some e -> dn_n dn <= se_i e)
    /\ walk fs addr (dn :: rest) d skipIndex log
       = roundAt fs addr (walk fs addr rest) dn d i log.
Proof.
  destruct (advanceSkipIndex_ret (d_skipped d) (dn_n dn) (length (d_skipped d)) skipIndex)
    as (i & Hr & Hle & Hbelow & Hat); [lia|].
  exists i. repeat split; [exact Hle | exact Hbelow | exact Hat |].
  simpl walk. rewrite Hr, skipListEntry_ret. unfold roundAt, freshRound.
  destruct (d_skipped d !! i) as [e|] eqn:He; [|reflexivity].
  destruct (se_i e =? dn_n dn); [|reflexivity].
  destruct (negb (address_eqb (se_addr e) addr)); [reflexivity|].
  now rewrite (removeAt_ret _ _ _ He).
Qed.

(** Every run of the loop is a derivation of [walks]; so the loop always
    returns, and what it returns is what [walks] allows. *)
Lemma walk_walks l : forall d skipIndex log,
  walks fs addr l d log (walk fs addr l d skipIndex log).
Proof.
  induction l as [|dn rest IH]; intros d skipIndex log.
  - apply W_nil.
  - destruct (walk_cons dn rest d skipIndex log) as (i & _ & _ & _ & ->).
    unfold roundAt.
    destruct (d_skipped d !! i) as [e|] eqn:He.
    + destruct (Z.eqb_spec (se_i e) (dn_n dn)) as [Hi|Hi].
      * destruct (address_eqb (se_addr e) addr) eqn:Ha; simpl negb; cbv iota.
        -- now apply (W_skip_hit _ _ dn rest d log i e).
        -- now apply (W_skip_other _ _ dn rest d log _ i e).
      * apply walks_fresh. intros; apply IH.
    + apply walks_fresh. intros; apply IH.
Qed.

End Walk.

(** ** What every run of the loop keeps *)

Section WalkInvariants.

Variables (fs : sysfs) (addr : address).

Implicit Types (d : deviceDir) (dn : deviceName) (log evs : list readEvent)
  (l rest : list deviceName) (e : skipEntry) (r : callResult).

Lemma address_eqb_eq (a b : address) : address_eqb a b = true <-> a = b.
Proof.
  revert b. induction a as [|x a IH]; intros [|y b]; simpl; try easy.
  rewrite andb_true_iff, IH. split.
  - intros [Hxy ->]. now apply Byte.byte_dec_bl in Hxy; subst.
  - intros [= -> ->]. split; [now apply Byte.byte_dec_lb | reflexivity].
Qed.

Lemma lastRead_app evs evs' (n : Z) :
  lastRead (evs ++ evs') n = lastRead evs' (lastRead evs n).
Proof. unfold lastRead. now rewrite foldl_app. Qed.

Lemma gated_app evs : forall evs' (n : Z),
  gated n (evs ++ evs') <-> gated n evs /\ gated (lastRead evs n) evs'.
Proof.
  induction evs as [|ev evs IH]; intros evs' n; simpl.
  - tauto.
  - rewrite IH. unfold lastRead. simpl. tauto.
Qed.

(** The loop returns: it neither panics nor runs on. *)
Lemma walks_returns l d log r :
  walks fs addr l d log r -> exists v, res r = Ret v.
Proof. induction 1; simpl; eauto. Qed.

(** The configuration stays, and the reads are added at the end. *)
Lemma walks_frame l d log r :
  walks fs addr l d log r ->
  d_path (st r) = d_path d /\ d_prefix (st r) = d_prefix d.
Proof. induction 1; simpl in *; auto. Qed.

(** The reads of a run and the high-water mark after it. *)
Lemma walks_reads l d log r :
  walks fs addr l d log r ->
  exists evs, reads r = log ++ evs
    /\ gated (d_n d) evs
    /\ d_n (st r) = lastRead evs (d_n d).
Proof.
  induction 1 as [d log | dn rest d log r i e _ _ _ _ IH | dn rest d log i e _ _ _
    | dn rest d log r _ _ _ IH | dn rest d log err Hg _
    | dn rest d log addrFile err Hg _ _ | dn rest d log addrFile devAddr Hg _ _ _
    | dn rest d log r addrFile devAddr Hg _ _ _ _ IH]; simpl in *.
  - exists []. now rewrite app_nil_r.
  - exact IH.
  - exists []. now rewrite app_nil_r.
  - exact IH.
  - exists []. now rewrite app_nil_r.
  - exists [(dn, None)]. simpl. auto.
  - exists [(dn, Some devAddr)]. simpl. auto.
  - destruct IH as (evs & Hr & Hgt & Hn).
    exists ((dn, Some devAddr) :: evs). rewrite <- app_assoc in Hr. simpl. auto.
Qed.

(** When the run ends with an error, the scanner holds what the reads
    that succeeded have given, and nothing else has changed. *)
Lemma walks_error l d log r :
  walks fs addr l d log r ->
  forall err, res r = Ret (inr err) ->
  exists evs, reads r = log ++ evs
    /\ d_skipped (st r) = d_skipped d ++ appended evs.
Proof.
  induction 1 as [d log | dn rest d log r i e _ _ _ _ IH | dn rest d log i e _ _ _
    | dn rest d log r _ _ _ IH | dn rest d log err' Hg _
    | dn rest d log addrFile err' Hg _ _ | dn rest d log addrFile devAddr Hg _ _ _
    | dn rest d log r addrFile devAddr Hg _ _ _ _ IH]; simpl in *; intros err Herr;
    try discriminate.
  - exists []. now rewrite !app_nil_r.
  - eauto.
  - eauto.
  - exists []. now rewrite !app_nil_r.
  - exists [(dn, None)]. simpl. now rewrite app_nil_r.
  - destruct (IH err Herr) as (evs & Hr & Hs).
    exists ((dn, Some devAddr) :: evs). rewrite <- app_assoc in Hr, Hs. auto.
Qed.

(** What is returned is the path of an entry of the listing. *)
Lemma walks_found l d log r :
  walks fs addr l d log r ->
  forall p, res r = Ret (inl p) ->
  exists dn, dn ∈ l /\ p = filepath_Join (d_path d) (dn_name dn).
Proof.
  induction 1 as [d log | dn rest d log r i e _ _ _ _ IH | dn rest d log i e _ _ _
    | dn rest d log r _ _ _ IH | dn rest d log err' Hg _
    | dn rest d log addrFile err' Hg _ _ | dn rest d log addrFile devAddr Hg _ _ _
    | dn rest d log r addrFile devAddr Hg _ _ _ _ IH]; simpl in *; intros p Hp;
    try discriminate.
  - destruct (IH p Hp) as (dn' & Hin & ->). exists dn'. split; [now right | reflexivity].
  - inversion Hp; subst. exists dn. split; [now left | reflexivity].
  - destruct (IH p Hp) as (dn' & Hin & ->). exists dn'. split; [now right | reflexivity].
  - inversion Hp; subst. exists dn. split; [now left | reflexivity].
  - destruct (IH p Hp) as (dn' & Hin & ->). exists dn'. split; [now right | reflexivity].
Qed.

(** When no entry of the listing is known under the requested address,
    in the skip list or in its attribute, the run ends with "not found". *)
Lemma walks_not_found l d log r :
  walks fs addr l d log r ->
  (forall dn, dn ∈ l ->
     (forall e, e ∈ d_skipped d -> se_i e = dn_n dn -> address_eqb (se_addr e) addr = false)
     /\ exists addrFile devAddr,
          openAddress fs (dn_name dn) = inl addrFile
          /\ readAttrAddr addrFile = inl devAddr
          /\ address_eqb devAddr addr = false) ->
  res r = Ret (inr (FindDevice addr NotFound)).
Proof.
  induction 1 as [d log | dn rest d log r i e _ _ _ _ IH | dn rest d log i e He Hi Ha
    | dn rest d log r _ _ _ IH | dn rest d log err' Hg Ho
    | dn rest d log addrFile err' Hg Ho Hr | dn rest d log addrFile devAddr Hg Ho Hr Ha
    | dn rest d log r addrFile devAddr Hg Ho Hr Ha _ IH]; simpl in *; intros Hall.
  - reflexivity.
  - apply IH. intros dn' Hin. apply Hall. now right.
  - destruct (Hall dn) as [Hsk _]; [now left|].
    rewrite (Hsk e) in Ha; [discriminate | | exact Hi].
    eapply list_elem_of_lookup_2. exact He.
  - apply IH. intros dn' Hin. apply Hall. now right.
  - destruct (Hall dn) as [_ (f & a & Ho' & _)]; [now left|]. congruence.
  - destruct (Hall dn) as [_ (f & a & Ho' & Hr' & _)]; [now left|]. congruence.
  - destruct (Hall dn) as [_ (f & a & Ho' & Hr' & Ha')]; [now left|]. congruence.
  - apply IH. intros dn' Hin. destruct (Hall dn') as [Hsk Hrd]; [now right|].
    split; [|exact Hrd].
    intros e He Hi. apply elem_of_app in He as [He|He]; [now apply Hsk|].
    apply list_elem_of_singleton in He. subst e. exact Ha.
Qed.

(** The skip list stays in order for the numbers from 0 on. *)
Lemma skipOK_delete d (i : nat) :
  skipOK d -> skipOK (set_skipped d (delete i (d_skipped d))).
Proof.
  intros Hok j e He Hpos. simpl in *.
  set (pos := fun k : nat => if decide (k < i)%nat then k else S k).
  assert (Hlk : forall k, delete i (d_skipped d) !! k = d_skipped d !! pos k)
    by (intros k; apply list_lookup_delete).
  rewrite Hlk in He. destruct (Hok (pos j) e He Hpos) as [Hle Hbefore].
  split; [exact Hle|].
  intros j' e' Hj' He'. rewrite Hlk in He'.
  apply (Hbefore (pos j') e'); [|exact He'].
  unfold pos. repeat case_decide; lia.
Qed.

Lemma skipOK_append d (n : Z) (a : address) :
  skipOK d -> ~ (0 <= d_n d /\ n <= d_n d) ->
  skipOK (set_skipped (set_n d n) (d_skipped d ++ [mkSkipEntry n a])).
Proof.
  intros Hok Hgate j e He Hpos. simpl in *.
  apply lookup_app_Some in He as [He|[Hj He]].
  - destruct (Hok j e He Hpos) as [Hle Hbefore]. split; [lia|].
    intros j' e' Hj' He'.
    apply lookup_app_Some in He' as [He'|[Hge _]].
    + now apply (Hbefore j' e').
    + apply lookup_lt_Some in He. lia.
  - apply list_lookup_singleton_Some in He as [Hj0 <-]. simpl in *. split; [lia|].
    intros j' e' Hj' He'.
    apply lookup_app_Some in He' as [He'|[Hge _]]; [|lia].
    destruct (Z.le_gt_cases 0 (se_i e')) as [Hpos'|Hneg]; [|lia].
    destruct (Hok j' e' He' Hpos') as [Hle _]. lia.
Qed.

Lemma walks_skipOK l d log r :
  walks fs addr l d log r -> skipOK d -> skipOK (st r).
Proof.
  induction 1 as [d log | dn rest d log r i e _ _ _ _ IH | dn rest d log i e _ _ _
    | dn rest d log r _ _ _ IH | dn rest d log err' Hg _
    | dn rest d log addrFile err' Hg _ _ | dn rest d log addrFile devAddr Hg _ _ _
    | dn rest d log r addrFile devAddr Hg _ _ _ _ IH]; simpl in *; intros Hok; auto.
  - now apply skipOK_delete.
  - intros j e He Hpos. simpl in *. destruct (Hok j e He Hpos) as [Hle Hbefore].
    split; [lia | exact Hbefore].
  - apply IH. now apply skipOK_append.
Qed.

(** A slot [N] from 0 on at or below the high-water mark: the mark stays
    above it, no entry is added to the skip list for it, and it can only
    be returned through an entry that the skip list already has.  [P] is
    any property of the addresses of these entries. *)
Lemma walks_masked (P : address -> Prop) (N : Z) l d log r :
  0 <= N ->
  walks fs addr l d log r ->
  N <= d_n d ->
  (forall e, e ∈ d_skipped d -> se_i e = N -> P (se_addr e)) ->
  N <= d_n (st r)
  /\ (forall e, e ∈ d_skipped (st r) -> se_i e = N -> P (se_addr e))
  /\ (forall p, res r = Ret (inl p) ->
        exists dn, dn ∈ l /\ p = filepath_Join (d_path d) (dn_name dn)
          /\ (dn_n dn = N -> P addr)).
Proof.
  intros HN.
  induction 1 as [d log | dn rest d log r i e He Hi Ha _ IH | dn rest d log i e He Hi Ha
    | dn rest d log r _ _ _ IH | dn rest d log err' Hg _
    | dn rest d log addrFile err' Hg _ _ | dn rest d log addrFile devAddr Hg _ _ _
    | dn rest d log r addrFile devAddr Hg _ _ _ _ IH]; simpl in *; intros Hle Hsk.
  - repeat split; [lia | exact Hsk | discriminate].
  - destruct (IH Hle Hsk) as (H1 & H2 & H3). repeat split; [exact H1 | exact H2 |].
    intros p Hp. destruct (H3 p Hp) as (dn' & Hin & -> & HP).
    exists dn'. repeat split; [now right | exact HP].
  - repeat split; [lia | |].
    + intros e' He' Hi'. apply list_elem_of_delete_inv in He'. now apply Hsk.
    + intros p [= <-]. exists dn. repeat split; [now left|].
      intros HdnN. apply address_eqb_eq in Ha. rewrite <- Ha.
      apply Hsk; [eapply list_elem_of_lookup_2; exact He | lia].
  - destruct (IH Hle Hsk) as (H1 & H2 & H3). repeat split; [exact H1 | exact H2 |].
    intros p Hp. destruct (H3 p Hp) as (dn' & Hin & -> & HP).
    exists dn'. repeat split; [now right | exact HP].
  - repeat split; [lia | exact Hsk | discriminate].
  - repeat split; [lia | exact Hsk | discriminate].
  - repeat split; [lia | exact Hsk |].
    intros p [= <-]. exists dn. repeat split; [now left | lia].
  - destruct IH as (H1 & H2 & H3); [lia | |].
    + intros e He Hi. apply elem_of_app in He as [He|He]; [now apply Hsk|].
      apply list_elem_of_singleton in He. subst e. simpl in Hi. lia.
    + repeat split; [exact H1 | exact H2 |].
      intros p Hp. destruct (H3 p Hp) as (dn' & Hin & -> & HP).
      exists dn'. repeat split; [now right | exact HP].
Qed.

(** The slot that a run returns, when its number is from 0 on, is at or
    below the high-water mark afterwards and has no entry in the skip
    list. *)
Lemma walks_claimed l d log r :
  walks fs addr l d log r -> skipOK d ->
  forall p, res r = Ret (inl p) ->
  exists dn, dn ∈ l /\ p = filepath_Join (d_path d) (dn_name dn)
    /\ (0 <= dn_n dn ->
        dn_n dn <= d_n (st r)
        /\ forall e, e ∈ d_skipped (st r) -> se_i e <> dn_n dn).
Proof.
  induction 1 as [d log | dn rest d log r i e He Hi Ha _ IH | dn rest d log i e He Hi Ha
    | dn rest d log r _ _ _ IH | dn rest d log err' Hg _
    | dn rest d log addrFile err' Hg _ _ | dn rest d log addrFile devAddr Hg _ _ _
    | dn rest d log r addrFile devAddr Hg _ _ _ _ IH]; simpl in *; intros Hok p Hp;
    try discriminate.
  - destruct (IH Hok p Hp) as (dn' & Hin & -> & H). exists dn'. split; [now right | auto].
  - inversion Hp; subst p. exists dn. split; [now left|]. split; [reflexivity|].
    intros Hpos. destruct (Hok i e He ltac:(lia)) as [Hle Hbefore]. split; [lia|].
    intros e' He' Heq. apply list_elem_of_lookup_1 in He' as [j Hj].
    rewrite list_lookup_delete in Hj.
    case_decide as Hlt.
    + specialize (Hbefore j e' Hlt Hj). lia.
    + destruct (Hok (S j) e' Hj ltac:(lia)) as [_ Hb].
      specialize (Hb i e ltac:(lia) He). lia.
  - destruct (IH Hok p Hp) as (dn' & Hin & -> & H). exists dn'. split; [now right | auto].
  - inversion Hp; subst p. exists dn. split; [now left|]. split; [reflexivity|].
    intros Hpos. split; [lia|].
    intros e' He' Heq. apply list_elem_of_lookup_1 in He' as [j Hj].
    destruct (Hok j e' Hj ltac:(lia)) as [Hle _]. lia.
  - destruct (IH (skipOK_append d (dn_n dn) devAddr Hok Hg) p Hp) as (dn' & Hin & -> & H).
    exists dn'. split; [now right | auto].
Qed.

(** When the listing has no negative number, none enters the skip list. *)
Lemma walks_nonneg l d log r :
  walks fs addr l d log r ->
  Forall (fun dn => 0 <= dn_n dn) l ->
  Forall (fun e => 0 <= se_i e) (d_skipped d) ->
  Forall (fun e => 0 <= se_i e) (d_skipped (st r)).
Proof.
  induction 1 as [d log | dn rest d log r i e _ _ _ _ IH | dn rest d log i e _ _ _
    | dn rest d log r _ _ _ IH | dn rest d log err' Hg _
    | dn rest d log addrFile err' Hg _ _ | dn rest d log addrFile devAddr Hg _ _ _
    | dn rest d log r addrFile devAddr Hg _ _ _ _ IH]; simpl in *; intros Hl Hsk; auto.
  - apply IH; [now inversion Hl | exact Hsk].
  - now apply Forall_delete.
  - apply IH; [now inversion Hl | exact Hsk].
  - inversion Hl; subst. apply IH; [assumption|].
    apply Forall_app. split; [exact Hsk | now repeat constructor].
Qed.

Lemma skipOK_sorted d :
  skipOK d -> Forall (fun e => 0 <= se_i e) (d_skipped d) ->
  StronglySorted Z.lt (map se_i (d_skipped d)).
Proof.
  unfold skipOK. generalize (d_n d) as n. generalize (d_skipped d) as sk.
  induction sk as [|e sk IH]; intros n Hok Hpos; simpl; [constructor|].
  inversion Hpos as [|? ? He Hpos']; subst. constructor.
  - apply (IH n); [|exact Hpos'].
    intros j e' He' Hpos''. destruct (Hok (S j) e' He' Hpos'') as [Hle Hbefore].
    split; [exact Hle|]. intros j' e'' Hj' He''. apply (Hbefore (S j') e''); [lia | exact He''].
  - apply Forall_forall. intros x Hx.
    apply list_elem_of_In, in_map_iff in Hx as (e' & <- & Hin).
    apply list_elem_of_In, list_elem_of_lookup_1 in Hin as [j Hj].
    rewrite Forall_forall in Hpos'.
    destruct (Hok (S j) e' Hj) as [_ Hbefore].
    + apply Hpos'. eapply list_elem_of_lookup_2. exact Hj.
    + apply (Hbefore 0%nat e); [lia | reflexivity].
Qed.

End WalkInvariants.

(** ** Replay of the skip list *)

Section Replay.

Variables (fs : sysfs) (addr : address).

Implicit Types (d : deviceDir) (dn : deviceName) (log : list readEvent)
  (l rest : list deviceName) (e : skipEntry).

(** The skip list holds the requested address at position [pA] for the
    slot [A], numbered from 0 on; the listing is in order and has slot
    [A]; and no listed slot below [A] is in the skip list with the
    requested address.  Then the loop reaches the entry at [pA] with its
    skip index, removes it and returns the first entry of the listing
    that has the number [A], without a read and without any other change
    of the scanner. *)
Lemma walk_replay (A : Z) (pA : nat) (eA : skipEntry) l :
  StronglySorted byNumber l ->
  forall d (skipIndex : nat) log,
    skipOK d -> 0 <= A ->
    d_skipped d !! pA = Some eA -> se_i eA = A -> se_addr eA = addr ->
    (skipIndex <= pA)%nat ->
    (exists dn, dn ∈ l /\ dn_n dn = A) ->
    (forall dn e, dn ∈ l -> dn_n dn < A -> e ∈ d_skipped d ->
                  se_i e = dn_n dn -> se_addr e <> addr) ->
    exists dn, dn ∈ l /\ dn_n dn = A
      /\ walk fs addr l d skipIndex log
         = mkCallResult (Ret (inl (filepath_Join (d_path d) (dn_name dn))))
             (set_skipped d (delete pA (d_skipped d))) log.
Proof.
  induction 1 as [|dn0 rest Hsorted IH Hall];
    intros d skipIndex log Hok HA HpA HiA HaA Hidx [dnA [HinA HnA]] Hothers.
  - now apply elem_of_nil in HinA.
  - destruct (Hok pA eA HpA ltac:(lia)) as [Hmark Hbefore].
    destruct (walk_cons fs addr dn0 rest d skipIndex log)
      as (i & Hle & Hbelow & Hat & ->).
    unfold roundAt.
    destruct (Z.eq_dec (dn_n dn0) A) as [Heq|Hne].
    + (* the entry of the listing for slot A: the skip index stops at pA *)
      assert (Hi : i = pA).
      { destruct (Nat.lt_trichotomy i pA) as [Hlt|[Heq'|Hgt]]; [|exact Heq'|].
        - destruct (lookup_lt_is_Some_2 (d_skipped d) i) as [e He].
          { apply lookup_lt_Some in HpA. lia. }
          specialize (Hat e He). specialize (Hbefore i e Hlt He). lia.
        - specialize (Hbelow pA eA ltac:(lia) HpA). lia. }
      subst i. rewrite HpA.
      destruct (Z.eqb_spec (se_i eA) (dn_n dn0)) as [_|Hx]; [|lia].
      rewrite HaA.
      assert (Hrefl : address_eqb addr addr = true) by now apply address_eqb_eq.
      rewrite Hrefl. simpl negb. cbv iota.
      exists dn0. split; [now left | split; [exact Heq | reflexivity]].
    + (* an entry below slot A: it is passed without a read *)
      assert (HinA' : dnA ∈ rest).
      { apply elem_of_cons in HinA as [->|H]; [contradiction | exact H]. }
      assert (Hlt : dn_n dn0 < A).
      { rewrite Forall_forall in Hall. specialize (Hall dnA HinA').
        unfold byNumber in Hall. lia. }
      assert (Hi : (i <= pA)%nat).
      { destruct (Nat.le_gt_cases i pA) as [H|H]; [exact H|].
        specialize (Hbelow pA eA ltac:(lia) HpA). lia. }
      assert (Hrest : exists dn, dn ∈ rest /\ dn_n dn = A
                /\ walk fs addr rest d i log
                   = mkCallResult (Ret (inl (filepath_Join (d_path d) (dn_name dn))))
                       (set_skipped d (delete pA (d_skipped d))) log).
      { apply (IH d i log Hok HA HpA HiA HaA Hi); [now exists dnA|].
        intros dn e Hdn. apply Hothers. now right. }
      assert (Hgo : exists dn, dn ∈ dn0 :: rest /\ dn_n dn = A
                /\ walk fs addr rest d i log
                   = mkCallResult (Ret (inl (filepath_Join (d_path d) (dn_name dn))))
                       (set_skipped d (delete pA (d_skipped d))) log).
      { destruct Hrest as (dn & Hin & Hn & Hw). exists dn. split; [now right | auto]. }
      assert (Hfresh : freshRound fs addr (fun d log => walk fs addr rest d i log) dn0 d log
                       = walk fs addr rest d i log).
      { unfold freshRound.
        destruct (Z.leb_spec 0 (d_n d)); [|lia].
        destruct (Z.leb_spec (dn_n dn0) (d_n d)); [reflexivity | lia]. }
      destruct (d_skipped d !! i) as [e|] eqn:He; [|now rewrite Hfresh].
      destruct (Z.eqb_spec (se_i e) (dn_n dn0)) as [Hei|Hei]; [|now rewrite Hfresh].
      assert (Hea : address_eqb (se_addr e) addr = false).
      { destruct (address_eqb (se_addr e) addr) eqn:E; [|reflexivity].
        apply address_eqb_eq in E. exfalso.
        apply (Hothers dn0 e); [now left | exact Hlt | | exact Hei | exact E].
        eapply list_elem_of_lookup_2. exact He. }
      rewrite Hea. simpl negb. cbv iota. exact Hgo.
Qed.

End Replay.

(** ** The listing *)

Section Listing.

Variable intSize : Z.

Implicit Types (s name prefix : string) (dn : deviceName) (d : deviceDir).

Lemma string_drop_app prefix s :
  string_drop (String.length prefix) (prefix ++ s) = s.
Proof. induction prefix as [|c p IH]; simpl; [reflexivity | exact IH]. Qed.

Lemma prefix_app prefix s : String.prefix prefix (prefix ++ s) = true.
Proof.
  induction prefix as [|c p IH]; simpl; [now destruct s|].
  destruct (ascii_dec c c) as [_|Hne]; [exact IH | contradiction].
Qed.

Lemma prefix_split prefix : forall name,
  String.prefix prefix name = true ->
  name = (prefix ++ string_drop (String.length prefix) name)%string.
Proof.
  induction prefix as [|c p IH]; intros [|c' name]; simpl; try easy.
  destruct (ascii_dec c c') as [->|_]; [|discriminate].
  intros H. f_equal. now apply IH.
Qed.

Lemma append_inv_head prefix s1 s2 :
  (prefix ++ s1)%string = (prefix ++ s2)%string -> s1 = s2.
Proof. induction prefix as [|c p IH]; simpl; [easy | intros [= H]; auto]. Qed.

Lemma filepath_Join_inj dir name1 name2 :
  filepath_Join dir name1 = filepath_Join dir name2 -> name1 = name2.
Proof.
  unfold filepath_Join. intros H.
  apply append_inv_head in H. now apply (append_inv_head "/") in H.
Qed.

Lemma parseDigits_bad s1 (c : ascii) s2 : forall acc,
  digitValue c = None -> parseDigits (s1 ++ String c s2) acc = None.
Proof.
  induction s1 as [|c1 s1 IH]; intros acc Hc; simpl.
  - now rewrite Hc.
  - destruct (digitValue c1); [now apply IH | reflexivity].
Qed.

Lemma digitValue_range (c : ascii) v : digitValue c = Some v -> 0 <= v <= 9.
Proof.
  unfold digitValue.
  destruct (Z.leb_spec 48 (Z.of_nat (nat_of_ascii c)));
    destruct (Z.leb_spec (Z.of_nat (nat_of_ascii c)) 57); simpl; intros [= <-]; lia.
Qed.

Lemma parseDigits_digits s : forall acc,
  allDigits s = true -> 0 <= acc ->
  exists v, parseDigits s acc = Some v /\ 0 <= v.
Proof.
  induction s as [|c s IH]; intros acc Hs Hacc; simpl in *.
  - now exists acc.
  - destruct (digitValue c) as [v|] eqn:Hc; [|discriminate].
    apply digitValue_range in Hc. apply IH; [exact Hs | lia].
Qed.

Lemma digit_not_sign (c : ascii) v :
  digitValue c = Some v -> c <> "-"%char /\ c <> "+"%char.
Proof. intros Hc. split; intros ->; vm_compute in Hc; discriminate. Qed.

(** [Atoi] on a sign-free text: the text as it is goes to [parseDigits]. *)
Lemma Atoi_unsigned (c : ascii) s :
  c <> "-"%char -> c <> "+"%char ->
  Atoi intSize (String c s)
  = match parseDigits (String c s) 0 with
    | None => None
    | Some v =>
        if (- 2 ^ (intSize - 1) <=? v) && (v <? 2 ^ (intSize - 1))
        then Some v else None
    end.
Proof.
  intros Hm Hp. unfold Atoi.
  destruct c as [[] [] [] [] [] [] [] []]; try reflexivity; contradiction.
Qed.

Lemma Atoi_digits s v :
  s <> EmptyString -> allDigits s = true -> parseDigits s 0 = Some v ->
  0 <= v /\
  Atoi intSize s = if v <? 2 ^ (intSize - 1) then Some v else None.
Proof.
  intros Hne Hs Hv. destruct s as [|c s]; [contradiction|].
  destruct (parseDigits_digits (String c s) 0 Hs) as (v' & Hv' & Hpos); [lia|].
  assert (v' = v) by congruence. subst v'. split; [exact Hpos|].
  assert (Hc : exists w, digitValue c = Some w).
  { simpl in Hs. destruct (digitValue c); [eauto | discriminate]. }
  destruct Hc as [w Hc]. destruct (digit_not_sign c w Hc) as [Hm Hp].
  rewrite (Atoi_unsigned c s Hm Hp), Hv.
  assert (H2 : 0 <= 2 ^ (intSize - 1)) by (apply Z.pow_nonneg; lia).
  destruct (Z.leb_spec (- 2 ^ (intSize - 1)) v); [reflexivity | lia].
Qed.

Lemma Atoi_nonNumeric s : nonNumeric s -> Atoi intSize s = None.
Proof.
  intros [->|(s1 & c & s2 & -> & Hc & Hsign)]; [reflexivity|].
  destruct s1 as [|c1 s1].
  - destruct (Hsign eq_refl) as [Hm Hp]. simpl append.
    rewrite (Atoi_unsigned c s2 Hm Hp). simpl. now rewrite Hc.
  - assert (Hbody : forall acc, parseDigits (s1 ++ String c s2) acc = None)
      by (intros; now apply parseDigits_bad).
    assert (Hfull : parseDigits (String c1 (s1 ++ String c s2)) 0 = None).
    { simpl. destruct (digitValue c1); [apply Hbody | reflexivity]. }
    simpl append. unfold Atoi.
    destruct c1 as [[] [] [] [] [] [] [] []];
      try (rewrite Hfull; reflexivity);
      rewrite Hbody; now destruct (s1 ++ String c s2)%string.
Qed.

Lemma parseDeviceName_number name prefix n :
  String.prefix prefix name = true ->
  Atoi intSize (string_drop (String.length prefix) name) = Some n ->
  parseDeviceName intSize name prefix = mkDeviceName name n.
Proof. intros Hp Ha. unfold parseDeviceName. now rewrite Hp, Ha. Qed.

(** An entry passes the filter of [list] exactly when it has the prefix
    and [Atoi] accepts the rest. *)
Lemma parseDeviceName_included name prefix :
  negb (deviceName_eqb (parseDeviceName intSize name prefix) zeroDeviceName) = true
  <-> String.prefix prefix name = true
      /\ exists n, Atoi intSize (string_drop (String.length prefix) name) = Some n.
Proof.
  unfold parseDeviceName.
  destruct (String.prefix prefix name) eqn:Hp; simpl negb at 2; cbv iota.
  - destruct (Atoi intSize (string_drop (String.length prefix) name)) as [n|] eqn:Ha.
    + split; [intros _; eauto|]. intros _.
      unfold deviceName_eqb. simpl.
      destruct name as [|c name]; [|reflexivity].
      destruct prefix; simpl in Ha; discriminate.
    + split; [discriminate|]. intros [_ (n & Hn)]. discriminate.
  - split; [discriminate | intros [? _]; discriminate].
Qed.

Lemma elem_of_insertByN dn x (l : list deviceName) :
  dn ∈ insertByN x l <-> dn = x \/ dn ∈ l.
Proof.
  induction l as [|y l IH]; simpl.
  - rewrite list_elem_of_singleton, elem_of_nil. tauto.
  - destruct (dn_n x <=? dn_n y).
    + now rewrite elem_of_cons.
    + rewrite !elem_of_cons, IH. tauto.
Qed.

Lemma elem_of_sortSlice dn (l : list deviceName) : dn ∈ sortSlice l <-> dn ∈ l.
Proof.
  induction l as [|y l IH]; simpl; [reflexivity|].
  rewrite elem_of_insertByN, IH, elem_of_cons. tauto.
Qed.

Lemma insertByN_sorted x (l : list deviceName) :
  StronglySorted byNumber l -> StronglySorted byNumber (insertByN x l).
Proof.
  induction 1 as [|y l Hs IH Hall]; simpl.
  - repeat constructor.
  - destruct (Z.leb_spec (dn_n x) (dn_n y)) as [Hle|Hgt].
    + constructor; [now constructor|]. constructor; [exact Hle|].
      eapply Forall_impl; [exact Hall|]. unfold byNumber. intros; lia.
    + constructor; [exact IH|].
      apply Forall_forall. intros z Hz. apply elem_of_insertByN in Hz as [->|Hz].
      * unfold byNumber. lia.
      * rewrite Forall_forall in Hall. now apply Hall.
Qed.

Lemma sortSlice_sorted (l : list deviceName) : StronglySorted byNumber (sortSlice l).
Proof. induction l; simpl; [constructor | now apply insertByN_sorted]. Qed.

(** What [list] returns: the entries that pass the filter, each with its
    own name and number, in the order of the numbers. *)
Lemma list_devices_elem d fs l :
  list_devices intSize d fs = inl l ->
  exists names, readdirnames fs = inl names
    /\ StronglySorted byNumber l
    /\ forall dn, dn ∈ l <->
         dn_name dn ∈ names
         /\ String.prefix (d_prefix d) (dn_name dn) = true
         /\ Atoi intSize (string_drop (String.length (d_prefix d)) (dn_name dn))
            = Some (dn_n dn).
Proof.
  unfold list_devices. destruct (readdirnames fs) as [names|err]; [|discriminate].
  intros [= <-]. exists names. split; [reflexivity|]. split; [apply sortSlice_sorted|].
  intros dn. rewrite elem_of_sortSlice, list_elem_of_filter, list_elem_of_In, in_map_iff.
  split.
  - intros [Hnz (name & <- & Hin)].
    apply parseDeviceName_included in Hnz as [Hp (n & Ha)].
    rewrite (parseDeviceName_number _ _ _ Hp Ha). simpl.
    split; [now apply list_elem_of_In | now split].
  - intros (Hin & Hp & Ha).
    assert (Hdn : parseDeviceName intSize (dn_name dn) (d_prefix d) = dn)
      by (rewrite (parseDeviceName_number _ _ _ Hp Ha); now destruct dn).
    split.
    + rewrite <- Hdn. apply parseDeviceName_included. eauto.
    + exists (dn_name dn). split; [exact Hdn | now apply list_elem_of_In].
Qed.

Lemma list_devices_parse d fs l dn :
  list_devices intSize d fs = inl l -> dn ∈ l ->
  parseDeviceName intSize (dn_name dn) (d_prefix d) = dn.
Proof.
  intros Hl Hin. destruct (list_devices_elem d fs l Hl) as (names & _ & _ & Hel).
  destruct (proj1 (Hel dn) Hin) as (_ & Hp & Ha).
  rewrite (parseDeviceName_number _ _ _ Hp Ha). now destruct dn.
Qed.

Lemma listed_iff d fs names name :
  readdirnames fs = inl names ->
  (listed intSize d fs name <->
     name ∈ names
     /\ String.prefix (d_prefix d) name = true
     /\ exists n, Atoi intSize (string_drop (String.length (d_prefix d)) name) = Some n).
Proof.
  intros Hnames.
  assert (Hl : exists l, list_devices intSize d fs = inl l)
    by (unfold list_devices; rewrite Hnames; eauto).
  destruct Hl as [l Hl].
  destruct (list_devices_elem d fs l Hl) as (names' & Hnames' & _ & Hel).
  assert (names' = names) by congruence. subst names'.
  split.
  - intros (l' & dn & Hl' & Hin & <-).
    assert (l' = l) by congruence. subst l'.
    apply Hel in Hin as (H1 & H2 & H3). eauto.
  - intros (Hin & Hp & n & Hn).
    exists l, (mkDeviceName name n). split; [exact Hl|]. split; [|reflexivity].
    apply Hel. simpl. auto.
Qed.

End Listing.

(** ** Calls of [findByAddress] *)

Section Scanner.

Variable intSize : Z.

Implicit Types (d : deviceDir) (dn : deviceName) (evs : list readEvent)
  (fs : sysfs) (addr : address) (r : callResult).

(** A call either stops at the listing, with the scanner as it was, or
    runs the loop over the listing. *)
Lemma findByAddress_cases d fs addr :
  (exists err, readdirnames fs = inr err
     /\ findByAddress intSize d fs addr
        = mkCallResult (Ret (inr (FindDevice addr (ListDevices (d_prefix d) err)))) d [])
  \/ (exists l, list_devices intSize d fs = inl l
        /\ walks fs addr l d [] (findByAddress intSize d fs addr)).
Proof.
  unfold findByAddress.
  destruct (list_devices intSize d fs) as [l|err] eqn:Hl.
  - right. exists l. split; [reflexivity | apply walk_walks].
  - left. unfold list_devices in Hl.
    destruct (readdirnames fs) as [names|err']; [discriminate|].
    inversion Hl; subst. eauto.
Qed.

Lemma findByAddress_frame d fs addr :
  d_path (st (findByAddress intSize d fs addr)) = d_path d
  /\ d_prefix (st (findByAddress intSize d fs addr)) = d_prefix d.
Proof.
  destruct (findByAddress_cases d fs addr) as [(err & _ & ->)|(l & _ & Hw)].
  - now simpl.
  - now apply walks_frame in Hw.
Qed.

Lemma findByAddress_reads d fs addr :
  gated (d_n d) (reads (findByAddress intSize d fs addr))
  /\ d_n (st (findByAddress intSize d fs addr))
     = lastRead (reads (findByAddress intSize d fs addr)) (d_n d).
Proof.
  destruct (findByAddress_cases d fs addr) as [(err & _ & ->)|(l & _ & Hw)].
  - now simpl.
  - apply walks_reads in Hw as (evs & -> & Hg & Hn). simpl. auto.
Qed.

(** A returned path belongs to an entry of the listing with that number. *)
Lemma returnsSlot_listed d fs addr (N : Z) :
  returnsSlot intSize d (findByAddress intSize d fs addr) N ->
  exists l dn, list_devices intSize d fs = inl l /\ dn ∈ l /\ dn_n dn = N
    /\ walks fs addr l d [] (findByAddress intSize d fs addr)
    /\ res (findByAddress intSize d fs addr)
       = Ret (inl (filepath_Join (d_path d) (dn_name dn))).
Proof.
  intros (name & Hres & Hparse).
  destruct (findByAddress_cases d fs addr) as [(err & _ & Heq)|(l & Hl & Hw)].
  - rewrite Heq in Hres. discriminate.
  - destruct (walks_found _ _ _ _ _ _ Hw _ Hres) as (dn & Hin & Hp).
    apply filepath_Join_inj in Hp. subst name.
    rewrite (list_devices_parse intSize d fs l dn Hl Hin) in Hparse.
    exists l, dn. repeat split; try assumption. now rewrite Hparse.
Qed.

Lemma gated_above evs : forall (n : Z),
  0 <= n -> gated n evs -> forall ev, ev ∈ evs -> n < dn_n (fst ev).
Proof.
  induction evs as [|ev0 evs IH]; intros n Hn Hg ev Hin.
  - now apply elem_of_nil in Hin.
  - destruct Hg as [Hgate Hrest].
    assert (Hm : n <= markAfter ev0 n)
      by (unfold markAfter; destruct (snd ev0); lia).
    apply elem_of_cons in Hin as [->|Hin]; [lia|].
    specialize (IH (markAfter ev0 n) ltac:(lia) Hrest ev Hin). lia.
Qed.

Lemma resolveAll_gated (calls : list (sysfs * address)) : forall d,
  gated (d_n d) (allReads (resolveAll intSize d calls)).
Proof.
  induction calls as [|[fs addr] calls IH]; intros d; simpl; [exact I|].
  unfold allReads. simpl. apply gated_app.
  destruct (findByAddress_reads d fs addr) as [Hg Hn].
  split; [exact Hg|]. rewrite <- Hn. apply IH.
Qed.

(** A call that fails leaves the skip list that the reads have extended. *)
Lemma findByAddress_error d fs addr err :
  res (findByAddress intSize d fs addr) = Ret (inr err) ->
  d_skipped (st (findByAddress intSize d fs addr))
  = d_skipped d ++ appended (reads (findByAddress intSize d fs addr)).
Proof.
  intros Herr.
  destruct (findByAddress_cases d fs addr) as [(e & _ & ->)|(l & _ & Hw)].
  - simpl. now rewrite app_nil_r.
  - destruct (walks_error _ _ _ _ _ _ Hw err Herr) as (evs & -> & ->). reflexivity.
Qed.

Lemma findByAddress_skipOK d fs addr :
  skipOK d -> skipOK (st (findByAddress intSize d fs addr)).
Proof.
  intros Hok.
  destruct (findByAddress_cases d fs addr) as [(err & _ & ->)|(l & _ & Hw)].
  - exact Hok.
  - now apply (walks_skipOK _ _ _ _ _ _ Hw).
Qed.

Lemma stateAfter_skipOK (calls : list (sysfs * address)) : forall d,
  skipOK d -> skipOK (stateAfter intSize d calls).
Proof.
  induction calls as [|[fs addr] calls IH]; intros d Hok; simpl; [exact Hok|].
  apply IH. now apply findByAddress_skipOK.
Qed.

Lemma newDeviceDir_skipOK (path prefix : string) : skipOK (newDeviceDir path prefix).
Proof. intros j e He. simpl in He. now rewrite lookup_nil in He. Qed.

Lemma returnsSlot_frame d d' r (N : Z) :
  d_path d = d_path d' -> d_prefix d = d_prefix d' ->
  returnsSlot intSize d r N -> returnsSlot intSize d' r N.
Proof. unfold returnsSlot. now intros -> ->. Qed.

(** The two ways in which a returned slot is identified agree. *)
Lemma returnsSlot_walks d fs addr (N : Z) l dn :
  list_devices intSize d fs = inl l -> dn ∈ l ->
  res (findByAddress intSize d fs addr)
  = Ret (inl (filepath_Join (d_path d) (dn_name dn))) ->
  returnsSlot intSize d (findByAddress intSize d fs addr) N -> dn_n dn = N.
Proof.
  intros Hl Hin Hres (name & Hres' & Hparse).
  rewrite Hres in Hres'. inversion Hres' as [Hj].
  apply filepath_Join_inj in Hj. subst name.
  rewrite (list_devices_parse intSize d fs l dn Hl Hin) in Hparse. now rewrite Hparse.
Qed.

Lemma findByAddress_masked (P : address -> Prop) (N : Z) d fs addr :
  0 <= N -> N <= d_n d ->
  (forall e, e ∈ d_skipped d -> se_i e = N -> P (se_addr e)) ->
  let r := findByAddress intSize d fs addr in
  N <= d_n (st r)
  /\ (forall e, e ∈ d_skipped (st r) -> se_i e = N -> P (se_addr e))
  /\ (returnsSlot intSize d r N -> P addr)
  /\ (forall ev, ev ∈ reads r -> dn_n (fst ev) <> N).
Proof.
  intros HN Hle Hsk r. subst r.
  assert (Hreads : forall ev, ev ∈ reads (findByAddress intSize d fs addr) ->
                     dn_n (fst ev) <> N).
  { intros ev Hev. destruct (findByAddress_reads d fs addr) as [Hg _].
    pose proof (gated_above _ (d_n d) ltac:(lia) Hg ev Hev). lia. }
  destruct (findByAddress_cases d fs addr) as [(err & _ & Heq)|(l & Hl & Hw)].
  - rewrite Heq in *. simpl. repeat split; [lia | exact Hsk | | exact Hreads].
    intros (name & Hres & _). discriminate.
  - destruct (walks_masked _ _ P N _ _ _ _ HN Hw Hle Hsk) as (H1 & H2 & H3).
    repeat split; [exact H1 | exact H2 | | exact Hreads].
    intros Hret. pose proof Hret as (name & Hres & _).
    destruct (H3 _ Hres) as (dn & Hin & Hp & HP).
    apply HP. apply (returnsSlot_walks d fs addr N l dn Hl Hin); [|exact Hret].
    rewrite Hres. now rewrite Hp.
Qed.

Lemma masked_calls (P : address -> Prop) (N : Z) (calls : list (sysfs * address)) :
  forall d, 0 <= N -> N <= d_n d ->
    (forall e, e ∈ d_skipped d -> se_i e = N -> P (se_addr e)) ->
    forall (k : nat) r, resolveAll intSize d calls !! k = Some r ->
    exists fs addr, calls !! k = Some (fs, addr)
      /\ (returnsSlot intSize d r N -> P addr)
      /\ (forall ev, ev ∈ reads r -> dn_n (fst ev) <> N).
Proof.
  induction calls as [|[fs addr] calls IH]; intros d HN Hle Hsk k r Hr; simpl in Hr.
  - now rewrite lookup_nil in Hr.
  - destruct (findByAddress_masked P N d fs addr HN Hle Hsk) as (H1 & H2 & H3 & H4).
    destruct k as [|k]; simpl in Hr.
    + inversion Hr; subst r. exists fs, addr. auto.
    + destruct (IH _ HN H1 H2 k r Hr) as (fs' & addr' & Hk & Hret & Hrd).
      exists fs', addr'. repeat split; [exact Hk | | exact Hrd].
      intros Hs. apply Hret.
      destruct (findByAddress_frame d fs addr) as [Hp Hx].
      now apply (returnsSlot_frame d).
Qed.

Lemma findByAddress_claimed d fs addr (N : Z) :
  skipOK d -> 0 <= N ->
  returnsSlot intSize d (findByAddress intSize d fs addr) N ->
  N <= d_n (st (findByAddress intSize d fs addr))
  /\ forall e, e ∈ d_skipped (st (findByAddress intSize d fs addr)) -> se_i e <> N.
Proof.
  intros Hok HN Hret.
  destruct (returnsSlot_listed d fs addr N Hret) as (l & dn & Hl & Hin & Hn & Hw & Hres).
  destruct (walks_claimed _ _ _ _ _ _ Hw Hok _ Hres) as (dn' & Hin' & Hp & Hcl).
  assert (Hn' : dn_n dn' = N).
  { apply (returnsSlot_walks d fs addr N l dn' Hl Hin'); [|exact Hret].
    rewrite Hres. now rewrite Hp. }
  rewrite Hn' in Hcl. now apply Hcl.
Qed.

Lemma no_double_claim_from (N : Z) (calls : list (sysfs * address)) :
  forall d (j k : nat) rj rk,
    skipOK d -> 0 <= N -> (j < k)%nat ->
    resolveAll intSize d calls !! j = Some rj ->
    resolveAll intSize d calls !! k = Some rk ->
    returnsSlot intSize d rj N -> ~ returnsSlot intSize d rk N.
Proof.
  induction calls as [|[fs addr] calls IH]; intros d j k rj rk Hok HN Hjk Hj Hk Hrj Hrk;
    simpl in Hj, Hk.
  - now rewrite lookup_nil in Hj.
  - destruct (findByAddress_frame d fs addr) as [Hpath Hprefix].
    destruct k as [|k]; [lia|]. simpl in Hk.
    destruct j as [|j]; simpl in Hj.
    + inversion Hj; subst rj.
      destruct (findByAddress_claimed d fs addr N Hok HN Hrj) as [Hle Hno].
      destruct (masked_calls (fun _ => False) N calls _ HN Hle
                  ltac:(intros e He Hi; exact (Hno e He Hi)) k rk Hk)
        as (fs' & addr' & _ & Hfalse & _).
      apply Hfalse. now apply (returnsSlot_frame d).
    + apply (IH _ j k rj rk (findByAddress_skipOK d fs addr Hok) HN ltac:(lia) Hj Hk).
      * now apply (returnsSlot_frame d).
      * now apply (returnsSlot_frame d).
Qed.

Lemma stateAfter_sorted (path prefix : string) (calls : list (sysfs * address)) :
  (forall fs addr names name,
     (fs, addr) ∈ calls -> readdirnames fs = inl names -> name ∈ names ->
     0 <= dn_n (parseDeviceName intSize name prefix)) ->
  forall d, d_prefix d = prefix -> skipOK d ->
    Forall (fun e => 0 <= se_i e) (d_skipped d) ->
    skipOK (stateAfter intSize d calls)
    /\ Forall (fun e => 0 <= se_i e) (d_skipped (stateAfter intSize d calls)).
Proof.
  induction calls as [|[fs addr] calls IH]; intros Hnames d Hprefix Hok Hpos; simpl;
    [now split|].
  destruct (findByAddress_frame d fs addr) as [_ Hprefix'].
  apply IH.
  - intros fs' addr' names name Hin Hrd Hnm.
    apply (Hnames fs' addr' names name); [now right | exact Hrd | exact Hnm].
  - now rewrite Hprefix'.
  - now apply findByAddress_skipOK.
  - destruct (findByAddress_cases d fs addr) as [(err & _ & ->)|(l & Hl & Hw)];
      [exact Hpos|].
    apply (walks_nonneg _ _ _ _ _ _ Hw); [|exact Hpos].
    apply Forall_forall. intros dn Hdn.
    destruct (list_devices_elem intSize d fs l Hl) as (names & Hnm & _ & Hel).
    rewrite <- (list_devices_parse intSize d fs l dn Hl Hdn). rewrite Hprefix.
    apply (Hnames fs addr names); [now left | exact Hnm | now apply Hel].
Qed.

End Scanner.

(** ** The table of [TestFindByAddress] *)

(** The embedding gives what the tests of the package expect. *)
Lemma test_table :
  pathsOf [(dir_three, S1)] = [Some "/sys/class/lego-sensor/sensor1"%string]
  /\ pathsOf [(dir_three, addressOf "iface:S4")] = [None]
  /\ pathsOf [(dir_not_matching, S3)] = [None]
  /\ pathsOf [(dir_three, S1); (dir_three, S1)]
     = [Some "/sys/class/lego-sensor/sensor1"%string; None]
  /\ pathsOf [(dir_three, S1); (dir_reconfigured, S1)]
     = [Some "/sys/class/lego-sensor/sensor1"%string;
        Some "/sys/class/lego-sensor/sensor3"%string]
  /\ pathsOf [(dir_three, S1); (dir_three, S3)]
     = [Some "/sys/class/lego-sensor/sensor1"%string;
        Some "/sys/class/lego-sensor/sensor0"%string]
  /\ pathsOf [(dir_three, S1); (dir_without0, S3)]
     = [Some "/sys/class/lego-sensor/sensor1"%string; None].
Proof. repeat split; vm_compute; reflexivity. Qed.

(** ** Deleted devices *)

(** C6. A call of [findByAddress] always returns (no index goes out of
    range); the path it returns belongs to a slot that the directory
    lists at that time, so a slot whose directory is deleted is not
    returned, claimed before or not; and when no listed slot is known
    under the requested address, by an entry of the skip list or by its
    attribute, the call reports "not found", whatever the skip list holds
    for slots that are gone. *)
Theorem deletion_removes_visibility (intSize : Z) (d : deviceDir) (fs : sysfs)
    (addr : address) :
  let r := findByAddress intSize d fs addr in
  (exists v, res r = Ret v)
  /\ (forall N, returnsSlot intSize d r N ->
        exists l dn, list_devices intSize d fs = inl l /\ dn ∈ l /\ dn_n dn = N)
  /\ (forall l, list_devices intSize d fs = inl l ->
        (forall dn, dn ∈ l ->
           (forall e, e ∈ d_skipped d -> se_i e = dn_n dn -> se_addr e <> addr)
           /\ exists addrFile devAddr,
                openAddress fs (dn_name dn) = inl addrFile
                /\ readAttrAddr addrFile = inl devAddr
                /\ devAddr <> addr) ->
        res r = Ret (inr (FindDevice addr NotFound))).
Proof.
  intros r. subst r. split; [|split].
  - destruct (findByAddress_cases intSize d fs addr) as [(err & _ & ->)|(l & _ & Hw)].
    + simpl. eauto.
    + now apply walks_returns in Hw.
  - intros N HN.
    destruct (returnsSlot_listed intSize d fs addr N HN) as (l & dn & Hl & Hin & Hn & _).
    eauto.
  - intros l Hl Hall.
    destruct (findByAddress_cases intSize d fs addr) as [(err & Herr & _)|(l' & Hl' & Hw)].
    + unfold list_devices in Hl. rewrite Herr in Hl. discriminate.
    + assert (l' = l) by congruence. subst l'.
      apply (walks_not_found _ _ _ _ _ _ Hw).
      intros dn Hin. destruct (Hall dn Hin) as [Hsk (f & a & Ho & Hr & Ha)]. split.
      * intros e He Hi. specialize (Hsk e He Hi).
        destruct (address_eqb (se_addr e) addr) eqn:E; [|reflexivity].
        apply address_eqb_eq in E. contradiction.
      * exists f, a. repeat split; try assumption.
        destruct (address_eqb a addr) eqn:E; [|reflexivity].
        apply address_eqb_eq in E. contradiction.
Qed.

(** The scenario "resolve iface:S1, delete sensor0, resolve iface:S3":
    slot 0 is in the skip list with the address iface:S3, but it is no
    longer listed, and the call reports "not found". *)
Lemma deletion_removes_visibility_witness :
  d_skipped sensors_after_S1 = [mkSkipEntry 0 S3]
  /\ res (findByAddress 64 sensors_after_S1 dir_without0 S3)
     = Ret (inr (FindDevice S3 NotFound)).
Proof.
  assert (Hsk : d_skipped sensors_after_S1 = [mkSkipEntry 0 S3])
    by (vm_compute; reflexivity).
  split; [exact Hsk|].
  apply (proj2 (proj2 (deletion_removes_visibility 64 sensors_after_S1 dir_without0 S3))
           [mkDeviceName "sensor1" 1; mkDeviceName "sensor2" 2]).
  - vm_compute. reflexivity.
  - intros dn Hin. rewrite Hsk. split.
    + intros e He Hi. apply list_elem_of_singleton in He. subst e. simpl in Hi.
      apply elem_of_cons in Hin as [->|Hin];
        [|apply list_elem_of_singleton in Hin; subst dn]; discriminate.
    + apply elem_of_cons in Hin as [->|Hin];
        [|apply list_elem_of_singleton in Hin; subst dn].
      * exists (FileContent (attr "iface:S1")), S1.
        split; [|split];
          [vm_compute; reflexivity | vm_compute; reflexivity | vm_compute; discriminate].
      * exists (FileContent (attr "iface:S2")), S2.
        split; [|split];
          [vm_compute; reflexivity | vm_compute; reflexivity | vm_compute; discriminate].
Defined.

(** ** The address codec *)

Section Codec.

Implicit Types (s : string) (c : list byte) (a : address).

Lemma length_list_byte_of_string s :
  length (list_byte_of_string s) = String.length s.
Proof.
  unfold list_byte_of_string.
  induction s as [|ch s IH]; simpl; [reflexivity | now rewrite IH].
Qed.

Lemma zeroAddress_cons : zeroAddress = x00 :: replicate 63 x00.
Proof. reflexivity. Qed.

Lemma length_encoded c :
  (length c <= 63)%nat -> length (encoded (length c) c) = 64%nat.
Proof.
  intros H. unfold encoded. simpl.
  rewrite length_app, length_replicate. lia.
Qed.

Lemma newAddress_encoded s :
  (String.length s <= 63)%nat ->
  newAddress s = inl (encoded (String.length s) (list_byte_of_string s)).
Proof.
  intros Hlen. unfold newAddress.
  change (length zeroAddress - 1)%nat with 63%nat.
  destruct (Nat.ltb_spec 63 (String.length s)) as [Hlt|_]; [lia|].
  f_equal. rewrite zeroAddress_cons.
  change (<[0%nat:=byte_of_int (String.length s)]> (x00 :: replicate 63 x00))
    with (byte_of_int (String.length s) :: replicate 63 x00).
  unfold copy_at, copy, encoded.
  change (take 1 (byte_of_int (String.length s) :: replicate 63 x00))
    with [byte_of_int (String.length s)].
  change (drop 1 (byte_of_int (String.length s) :: replicate 63 x00))
    with (replicate 63 x00 : list byte).
  rewrite length_replicate, length_list_byte_of_string.
  rewrite Nat.min_r by lia.
  rewrite take_ge by (rewrite length_list_byte_of_string; lia).
  now rewrite drop_replicate.
Qed.

Lemma newAddress_too_long s :
  newAddress s = inr AddressTooLong <-> (63 < String.length s)%nat.
Proof.
  split.
  - intros H. destruct (Nat.le_gt_cases (String.length s) 63) as [Hle|Hgt]; [|exact Hgt].
    rewrite newAddress_encoded in H by exact Hle. discriminate.
  - intros H. unfold newAddress.
    change (length zeroAddress - 1)%nat with 63%nat.
    destruct (Nat.ltb_spec 63 (String.length s)); [reflexivity | lia].
Qed.

Lemma address_String_encoded c :
  (length c <= 63)%nat ->
  address_String (encoded (length c) c) = Some (string_of_list_byte c).
Proof.
  intros Hlen. unfold address_String.
  rewrite length_encoded by exact Hlen.
  unfold encoded at 1. simpl (default _ _).
  rewrite byte_of_int_to_nat by lia.
  rewrite (Nat.mod_small (length c + 1) 256) by lia.
  destruct (Nat.leb_spec 1 (length c + 1)) as [_|?]; [|lia].
  destruct (Nat.leb_spec (length c + 1) 64) as [_|?]; [|lia].
  simpl andb. cbv iota. unfold encoded. simpl drop. rewrite drop_0.
  replace (length c + 1 - 1)%nat with (length c) by lia.
  now rewrite take_app_length.
Qed.

Lemma zeroTail_spec (x : byte) (m : nat) : forall (k : nat) (a : list byte),
  (k + m <= length a)%nat ->
  foldl (fun a i => <[i := x]> a) a (seq k m)
  = take k a ++ replicate m x ++ drop (k + m) a.
Proof.
  induction m as [|m IH]; intros k a Hk.
  - simpl. rewrite Nat.add_0_r. now rewrite take_drop.
  - simpl seq. simpl foldl.
    rewrite (IH (S k) (<[k:=x]> a)) by (rewrite length_insert; lia).
    rewrite take_insert_lt by lia.
    rewrite drop_insert_lt by lia.
    replace (S k + m)%nat with (k + S m)%nat by lia.
    assert (Hlk : is_Some (a !! k)) by (apply lookup_lt_is_Some; lia).
    destruct Hlk as [y Hy].
    rewrite (take_S_r a k y Hy).
    rewrite insert_app_r_alt by (rewrite length_take; lia).
    rewrite length_take, Nat.min_l by lia. rewrite Nat.sub_diag. simpl.
    now rewrite <- app_assoc.
Qed.

Lemma zeroTail_encoded n c (b0 : byte) (tl : list byte) :
  length c = n -> (n <= 63)%nat -> length tl = (63 - n)%nat ->
  zeroTail n (b0 :: c ++ tl) = b0 :: c ++ replicate (63 - n) x00.
Proof.
  intros Hc Hn Htl. unfold zeroTail.
  assert (Hlen : length (b0 :: c ++ tl) = 64%nat)
    by (simpl; rewrite length_app; lia).
  rewrite zeroTail_spec by lia. rewrite Hlen.
  replace (n + 1)%nat with (S n) by lia.
  rewrite drop_ge by lia. rewrite app_nil_r.
  simpl take. rewrite take_app_length' by lia.
  replace (64 - S n)%nat with (63 - n)%nat by lia. reflexivity.
Qed.

(** What [readAttrAddr] computes from the content of the file: only the
    first 64 bytes are read, one newline at their end is dropped, and the
    rest is encoded as [newAddress] does. *)
Lemma readAttrAddr_content c :
  let c' := take 64 c in
  let n := if hasNewlineSuffix c' then (length c' - 1)%nat else length c' in
  readAttrAddr (FileContent c)
  = if (63 <? n)%nat then inr ReadAttributeTooLong
    else inl (encoded n (take n c')).
Proof.
  intros c' n. unfold readAttrAddr, readAttrBytes.
  change (length zeroAddress) with 64%nat.
  assert (Hc' : length c' = (64 `min` length c)%nat)
    by (unfold c'; now rewrite length_take).
  rewrite <- Hc'.
  assert (Htc : take (length c') c = c').
  { rewrite Hc'. rewrite <- take_take. now rewrite (take_ge c (length c)). }
  rewrite Htc.
  set (p := c' ++ drop (length c') zeroAddress).
  assert (Hp : length p = 64%nat).
  { unfold p. rewrite length_app, length_drop. change (length zeroAddress) with 64%nat. lia. }
  assert (Htp : take (length c') p = c') by (unfold p; now rewrite take_app_length).
  rewrite Htp. fold n. rewrite Hp. change (64 - 1)%nat with 63%nat.
  destruct (Nat.ltb_spec 63 n) as [Hlt|Hle]; [reflexivity|].
  f_equal.
  assert (Hn : (n <= length c')%nat) by (unfold n; destruct (hasNewlineSuffix c'); lia).
  assert (Htn : take n p = take n c') by (unfold p; now rewrite take_app_le).
  unfold copy_at, copy. rewrite Htn, length_drop, Hp, length_take.
  rewrite (Nat.min_l n (length c')) by lia.
  rewrite (Nat.min_r (64 - 1) n) by lia.
  rewrite take_take, Nat.min_id, drop_drop.
  destruct p as [|p0 ptl] eqn:Ep; [simpl in Hp; lia|].
  simpl take at 1. cbn [app]. simpl (<[0%nat:=_]> _).
  unfold encoded. apply zeroTail_encoded.
  - rewrite length_take. lia.
  - exact Hle.
  - rewrite length_drop. simpl in Hp. lia.
Qed.

End Codec.

(** ** Round trip of the codec *)

(** C9. For a string [s] of at most 63 bytes, [newAddress] succeeds and
    [String] of its result is [s] again; and [newAddress] fails with
    "address too long" exactly when [s] is longer than 63 bytes. *)
Theorem address_roundtrip (s : string) :
  ((String.length s <= 63)%nat ->
     exists a, newAddress s = inl a /\ address_String a = Some s)
  /\ (newAddress s = inr AddressTooLong <-> (63 < String.length s)%nat).
Proof.
  split.
  - intros Hlen. eexists. split; [now apply newAddress_encoded|].
    rewrite <- length_list_byte_of_string.
    rewrite address_String_encoded
      by (rewrite length_list_byte_of_string; exact Hlen).
    now rewrite string_of_list_byte_of_string.
  - apply newAddress_too_long.
Qed.

Lemma address_roundtrip_witness :
  (String.length text_port <= 63)%nat
  /\ exists a, newAddress text_port = inl a /\ address_String a = Some text_port.
Proof.
  split; [simpl; lia|].
  apply (proj1 (address_roundtrip text_port)). simpl. lia.
Defined.

(** ** [readAttrAddr] against [newAddress] *)

Lemma hasNewlineSuffix_snoc (c : list byte) :
  hasNewlineSuffix (c ++ [newline]) = true.
Proof. unfold hasNewlineSuffix. now rewrite last_snoc. Qed.

(** C10, as the code has it. For a text [s] of at most 63 bytes,
    [readAttrAddr] on a file that holds [s] followed by one newline gives
    the array of [newAddress s], and so does a file that holds [s] alone
    when [s] does not itself end with a newline; and [readAttrAddr] fails
    with "address too long" when the file has a 64th byte that is not a
    newline. *)
Theorem readAttrAddr_newAddress :
  (forall s : string, (String.length s <= 63)%nat ->
     (exists a, newAddress s = inl a) /\
     readAttrAddr (FileContent (list_byte_of_string s ++ [newline])) = newAddress s /\
     (hasNewlineSuffix (list_byte_of_string s) = false ->
        readAttrAddr (FileContent (list_byte_of_string s)) = newAddress s))
  /\ (forall (c : list byte) (b : byte),
       c !! 63%nat = Some b -> b <> newline ->
       readAttrAddr (FileContent c) = inr ReadAttributeTooLong).
Proof.
  split.
  - intros s Hlen.
    pose proof (length_list_byte_of_string s) as HL.
    set (L := list_byte_of_string s) in *.
    rewrite (newAddress_encoded s Hlen). fold L.
    split; [eexists; reflexivity|]. split.
    + rewrite readAttrAddr_content. cbv zeta.
      rewrite (take_ge (L ++ [newline]) 64) by (rewrite length_app; simpl; lia).
      rewrite hasNewlineSuffix_snoc, length_app. simpl length.
      replace (length L + 1 - 1)%nat with (length L) by lia.
      destruct (Nat.ltb_spec 63 (length L)) as [?|_]; [lia|].
      now rewrite take_app_length, HL.
    + intros Hnl. rewrite readAttrAddr_content. cbv zeta.
      rewrite (take_ge L 64) by lia. rewrite Hnl.
      destruct (Nat.ltb_spec 63 (length L)) as [?|_]; [lia|].
      now rewrite firstn_all, HL.
  - intros c b Hb Hne.
    assert (Hlen : (63 < length c)%nat) by (eapply lookup_lt_Some; exact Hb).
    rewrite readAttrAddr_content. cbv zeta.
    assert (Hl : length (take 64 c) = 64%nat) by (rewrite length_take; lia).
    assert (Hs : hasNewlineSuffix (take 64 c) = false).
    { unfold hasNewlineSuffix. rewrite last_lookup, Hl. simpl Init.Nat.pred.
      rewrite lookup_take_lt by lia. rewrite Hb.
      destruct (Byte.eqb b newline) eqn:E; [|reflexivity].
      apply Byte.byte_dec_bl in E. contradiction. }
    rewrite Hs, Hl. reflexivity.
Qed.

Lemma readAttrAddr_newAddress_witness :
  (String.length text_port <= 63)%nat
  /\ readAttrAddr (FileContent (list_byte_of_string text_port ++ [newline]))
     = newAddress text_port
  /\ readAttrAddr (FileContent (replicate 64 "a"%byte)) = inr ReadAttributeTooLong.
Proof.
  split; [simpl; lia|]. split.
  - assert (Hlen : (String.length text_port <= 63)%nat) by (simpl; lia).
    exact (proj1 (proj2 (proj1 readAttrAddr_newAddress text_port Hlen))).
  - apply (proj2 readAttrAddr_newAddress (replicate 64 "a"%byte) "a"%byte).
    + reflexivity.
    + discriminate.
Defined.

(** The text ["\n"] has one byte, but the file that holds just it is read
    as the empty address, not as [newAddress "\n"]; and a file whose 64th
    byte is a newline is read without an error although, with no newline
    at its end, it has 65 bytes. *)
Lemma readAttrAddr_newAddress_counterexample :
  ((String.length text_newline <= 63)%nat
   /\ readAttrAddr (FileContent (list_byte_of_string text_newline))
      <> newAddress text_newline)
  /\ ((63 < length (stripNewline content_newline_at_64))%nat
      /\ readAttrAddr (FileContent content_newline_at_64)
         = inl (encoded 63 text63)).
Proof.
  split; split.
  - simpl. lia.
  - vm_compute. discriminate.
  - vm_compute. lia.
  - vm_compute. reflexivity.
Qed.

(** ** Calls that fail *)

(** C7, as the code has it. After a call that fails, the scanner has its
    configuration, its skip list is the one before the call followed by
    the entries of the reads that succeeded, and its high-water mark is
    the number of the last read that succeeded, or the mark before the
    call when there is none: a read that fails does not advance it.  So
    the scanner is unchanged when the call made no read, and it is when
    the listing fails. *)
Theorem failed_call_state (intSize : Z) (d : deviceDir) (fs : sysfs)
    (addr : address) (err : error) :
  let r := findByAddress intSize d fs addr in
  res r = Ret (inr err) ->
  d_path (st r) = d_path d /\ d_prefix (st r) = d_prefix d
  /\ d_skipped (st r) = d_skipped d ++ appended (reads r)
  /\ d_n (st r) = lastRead (reads r) (d_n d)
  /\ (reads r = [] -> st r = d)
  /\ (forall e, readdirnames fs = inr e -> st r = d /\ reads r = []).
Proof.
  intros r Herr. subst r.
  destruct (findByAddress_frame intSize d fs addr) as [Hpath Hprefix].
  destruct (findByAddress_reads intSize d fs addr) as [_ Hn].
  pose proof (findByAddress_error intSize d fs addr err Herr) as Hsk.
  repeat (split; [assumption|]). split.
  - intros Hnil. rewrite Hnil in Hsk, Hn. simpl in Hsk, Hn. rewrite app_nil_r in Hsk.
    destruct (st (findByAddress intSize d fs addr)), d; simpl in *. congruence.
  - intros e He.
    destruct (findByAddress_cases intSize d fs addr) as [(e' & _ & ->)|(l & Hl & _)].
    + now simpl.
    + unfold list_devices in Hl. rewrite He in Hl. discriminate.
Qed.

Lemma failed_call_state_witness :
  d_n (st (findByAddress 64 sensors dir_too_long S1))
  = lastRead (reads (findByAddress 64 sensors dir_too_long S1)) (d_n sensors).
Proof.
  apply (failed_call_state 64 sensors dir_too_long S1
           (FindDevice S1 ReadAttributeTooLong)).
  vm_compute. reflexivity.
Defined.

(** The attribute of [sensor0] is read and is too long: the call fails at
    the read of slot 0, and the high-water mark is still -1, not 0. *)
Lemma failed_read_keeps_mark :
  let r := findByAddress 64 sensors dir_too_long S1 in
  res r = Ret (inr (FindDevice S1 ReadAttributeTooLong))
  /\ reads r = [(mkDeviceName "sensor0" 0, None)]
  /\ d_n (st r) = -1
  /\ d_n (st r) <> 0.
Proof. vm_compute. repeat split; discriminate. Qed.

(** ** Reads of the address attribute *)

(** C2, as the code has it. Over the calls made on a scanner since it was
    created, every read is made at a slot beyond the high-water mark of
    that time; and once the address of a slot numbered from 0 on has been
    read with success, every later read is at a greater slot, so that
    address is not read again. *)
Theorem successful_read_not_repeated (intSize : Z) (path prefix : string)
    (calls : list (sysfs * address)) :
  let evs := allReads (resolveAll intSize (newDeviceDir path prefix) calls) in
  gated (-1) evs
  /\ forall evs1 dn a evs2,
       evs = evs1 ++ (dn, Some a) :: evs2 -> 0 <= dn_n dn ->
       forall ev, ev ∈ evs2 -> dn_n dn < dn_n (fst ev).
Proof.
  intros evs.
  assert (Hg : gated (-1) evs) by apply (resolveAll_gated intSize calls (newDeviceDir path prefix)).
  split; [exact Hg|].
  intros evs1 dn a evs2 Heq Hdn ev Hin. rewrite Heq in Hg.
  apply gated_app in Hg as [_ Hg]. destruct Hg as [_ Hg].
  now apply (gated_above evs2 (dn_n dn) Hdn Hg ev Hin).
Qed.

Lemma successful_read_not_repeated_witness :
  dn_n (mkDeviceName "sensor0" 0) < dn_n (mkDeviceName "sensor2" 2).
Proof.
  apply (proj2 (successful_read_not_repeated 64 "/sys/class/lego-sensor" "sensor"
                  [(dir_three, S1); (dir_three, S1)])
           [] (mkDeviceName "sensor0" 0) S3
           [(mkDeviceName "sensor1" 1, Some S1); (mkDeviceName "sensor2" 2, Some S2)]
           eq_refl ltac:(simpl; lia) (mkDeviceName "sensor2" 2, Some S2)).
  right. left.
Defined.

(** An attribute that cannot be parsed is read by every call: slot 0 is
    read twice by two calls. *)
Lemma failed_read_is_repeated :
  allReads (resolveAll 64 sensors [(dir_too_long, S1); (dir_too_long, S1)])
  = [(mkDeviceName "sensor0" 0, None); (mkDeviceName "sensor0" 0, None)].
Proof. vm_compute. reflexivity. Qed.

(** ** A slot number that is used again *)

(** C4, as the code has it. Let slot [N], numbered from 0 on, be at or
    below the high-water mark, with the address [a_old] in its entries of
    the skip list.  Whatever the directory holds in the calls that follow
    (the device deleted, another one created at slot [N]), no call reads
    the address of slot [N], and a call that returns the path of slot [N]
    is a call that requests [a_old]: the device that now has the slot is
    found under the old address and under no other. *)
Theorem reused_slot_masked (intSize : Z) (d : deviceDir) (N : Z) (a_old : address)
    (calls : list (sysfs * address)) (k : nat) (fs : sysfs) (addr : address)
    (r : callResult) :
  0 <= N -> N <= d_n d ->
  (forall e, e ∈ d_skipped d -> se_i e = N -> se_addr e = a_old) ->
  calls !! k = Some (fs, addr) ->
  resolveAll intSize d calls !! k = Some r ->
  (returnsSlot intSize d r N -> addr = a_old)
  /\ (forall ev, ev ∈ reads r -> dn_n (fst ev) <> N).
Proof.
  intros HN Hle Hsk Hcall Hr.
  destruct (masked_calls intSize (fun a => a = a_old) N calls d HN Hle Hsk k r Hr)
    as (fs' & addr' & Hcall' & Hret & Hrd).
  rewrite Hcall in Hcall'. inversion Hcall'; subst. auto.
Qed.

Lemma reused_slot_masked_witness :
  (returnsSlot 64 sensors_after_miss
     (findByAddress 64 sensors_after_miss dir_reused S2) 0 -> S2 = S3)
  /\ (forall ev, ev ∈ reads (findByAddress 64 sensors_after_miss dir_reused S2) ->
        dn_n (fst ev) <> 0).
Proof.
  apply (reused_slot_masked 64 sensors_after_miss 0 S3 [(dir_reused, S2)] 0%nat
           dir_reused S2).
  - lia.
  - vm_compute. discriminate.
  - intros e He Hi.
    assert (Hsk : d_skipped sensors_after_miss = [mkSkipEntry 0 S3])
      by (vm_compute; reflexivity).
    rewrite Hsk in He. apply list_elem_of_singleton in He. now subst e.
  - reflexivity.
  - reflexivity.
Defined.

(** Slot 0 was read with the address iface:S3 and skipped; the device is
    replaced by one with the address iface:S2.  A call for iface:S3 then
    returns the path of slot 0, without a read. *)
Lemma reused_slot_is_returned :
  let r := findByAddress 64 sensors_after_miss dir_reused S3 in
  d_skipped sensors_after_miss = [mkSkipEntry 0 S3]
  /\ d_n sensors_after_miss = 0
  /\ returnsSlot 64 sensors_after_miss r 0
  /\ reads r = [].
Proof.
  split; [vm_compute; reflexivity|]. split; [vm_compute; reflexivity|]. split.
  - exists "sensor0"%string. split; vm_compute; reflexivity.
  - vm_compute. reflexivity.
Qed.

(** ** A slot is claimed once *)

(** For the slots numbered from 0 on, a slot that a call has returned is
    not returned by any later call on the same scanner. *)
Theorem no_double_claim (intSize : Z) (path prefix : string)
    (calls : list (sysfs * address)) (j k : nat) (rj rk : callResult) (N : Z) :
  let d := newDeviceDir path prefix in
  0 <= N -> (j < k)%nat ->
  resolveAll intSize d calls !! j = Some rj ->
  resolveAll intSize d calls !! k = Some rk ->
  returnsSlot intSize d rj N -> ~ returnsSlot intSize d rk N.
Proof.
  intros d HN Hjk Hj Hk.
  now apply (no_double_claim_from intSize N calls d j k rj rk
               (newDeviceDir_skipOK path prefix)).
Qed.

Lemma no_double_claim_witness :
  ~ returnsSlot 64 sensors (findByAddress 64 sensors_after_S1 dir_three S1) 1.
Proof.
  apply (no_double_claim 64 "/sys/class/lego-sensor" "sensor"
           [(dir_three, S1); (dir_three, S1)] 0%nat 1%nat
           (findByAddress 64 sensors dir_three S1)
           (findByAddress 64 sensors_after_S1 dir_three S1) 1).
  - lia.
  - lia.
  - reflexivity.
  - reflexivity.
  - exists "sensor1"%string. split; vm_compute; reflexivity.
Defined.

(** C1 on an entry with a negative number.  The directory holds
    [sensor-5]; two calls for its address are made on a new scanner, and
    both return the path of slot -5: after the first call the high-water
    mark is -5, which the test [d.n >= 0] takes for "nothing scanned". *)
Lemma double_claim_negative_slot :
  let r1 := findByAddress 64 sensors dir_minus5 S1 in
  let r2 := findByAddress 64 (st r1) dir_minus5 S1 in
  resolveAll 64 sensors [(dir_minus5, S1); (dir_minus5, S1)] = [r1; r2]
  /\ res r1 = Ret (inl "/sys/class/lego-sensor/sensor-5"%string)
  /\ res r2 = Ret (inl "/sys/class/lego-sensor/sensor-5"%string)
  /\ returnsSlot 64 sensors r1 (-5)
  /\ returnsSlot 64 sensors r2 (-5)
  /\ d_n (st r1) = -5.
Proof.
  cbv zeta.
  split; [vm_compute; reflexivity|]. split; [vm_compute; reflexivity|].
  split; [vm_compute; reflexivity|].
  split; [exists "sensor-5"%string; split; vm_compute; reflexivity|].
  split; [exists "sensor-5"%string; split; vm_compute; reflexivity|].
  vm_compute. reflexivity.
Qed.

(** ** The order of the skip list *)

(** As long as the directory lists no entry with a negative number, the
    skip list is in ascending order of the slot numbers after every call,
    without being sorted. *)
Theorem skipped_stays_sorted (intSize : Z) (path prefix : string)
    (calls : list (sysfs * address)) :
  (forall fs addr names name,
     (fs, addr) ∈ calls -> readdirnames fs = inl names -> name ∈ names ->
     0 <= dn_n (parseDeviceName intSize name prefix)) ->
  StronglySorted Z.lt
    (map se_i (d_skipped (stateAfter intSize (newDeviceDir path prefix) calls))).
Proof.
  intros Hnames.
  destruct (stateAfter_sorted intSize path prefix calls Hnames (newDeviceDir path prefix))
    as [Hok Hpos]; [reflexivity | apply newDeviceDir_skipOK | constructor |].
  now apply skipOK_sorted.
Qed.

Lemma skipped_stays_sorted_witness :
  StronglySorted Z.lt
    (map se_i (d_skipped (stateAfter 64 sensors [(dir_three, addressOf "iface:S4")]))).
Proof.
  apply (skipped_stays_sorted 64 "/sys/class/lego-sensor" "sensor"
           [(dir_three, addressOf "iface:S4")]).
  intros fs addr names name Hcall Hnames Hname.
  apply list_elem_of_singleton in Hcall. inversion Hcall; subst fs addr.
  inversion Hnames; subst names.
  repeat (apply elem_of_cons in Hname as [->|Hname]; [vm_compute; discriminate|]).
  now apply elem_of_nil in Hname.
Defined.

(** C8 on entries with negative numbers.  A first call reads [sensor-5]
    and skips it; then [sensor-7] appears, and the second call reads it
    (the mark -5 counts as "nothing scanned") and appends it to the skip
    list behind -5: the skip list is no longer in ascending order. *)
Lemma skipped_unsorted_negative_slots :
  let r1 := findByAddress 64 sensors dir_minus5_S3 S1 in
  let r2 := findByAddress 64 (st r1) dir_minus7_minus5 S1 in
  stateAfter 64 sensors [(dir_minus5_S3, S1); (dir_minus7_minus5, S1)] = st r2
  /\ map se_i (d_skipped (st r1)) = [-5]
  /\ map se_i (d_skipped (st r2)) = [-5; -7]
  /\ ~ StronglySorted Z.lt (map se_i (d_skipped (st r2))).
Proof.
  assert (H2 : map se_i (d_skipped (st (findByAddress 64
                 (st (findByAddress 64 sensors dir_minus5_S3 S1)) dir_minus7_minus5 S1)))
               = [-5; -7]) by (vm_compute; reflexivity).
  cbv zeta. rewrite H2. repeat split; try (vm_compute; reflexivity).
  intros Hs. apply StronglySorted_inv in Hs as [_ Hall].
  inversion Hall; subst. lia.
Qed.

(** ** Skipped devices are found again *)

(** C3, as the code has it. On a scanner as any sequence of calls leaves
    it, let the skip list hold the requested address for the slot [A],
    numbered from 0 on; let the directory still list slot [A], and let no
    listed slot below [A] be in the skip list with the same address.  Then
    the call returns the path of slot [A] and makes no read at all; the
    entry is taken out of the skip list and the high-water mark stays. *)
Theorem skip_and_replay (intSize : Z) (path prefix : string)
    (calls : list (sysfs * address)) (fs : sysfs) (addr : address) (A : Z)
    (e : skipEntry) (l : list deviceName) :
  let d := stateAfter intSize (newDeviceDir path prefix) calls in
  let r := findByAddress intSize d fs addr in
  e ∈ d_skipped d -> se_i e = A -> se_addr e = addr -> 0 <= A ->
  list_devices intSize d fs = inl l ->
  (exists dn, dn ∈ l /\ dn_n dn = A) ->
  (forall dn e', dn ∈ l -> dn_n dn < A -> e' ∈ d_skipped d ->
                 se_i e' = dn_n dn -> se_addr e' <> addr) ->
  returnsSlot intSize d r A
  /\ reads r = []
  /\ d_n (st r) = d_n d
  /\ exists pA : nat, d_skipped d !! pA = Some e
       /\ d_skipped (st r) = delete pA (d_skipped d).
Proof.
  intros d r He Hi Ha HA Hl Hlisted Hothers.
  assert (Hok : skipOK d)
    by (apply stateAfter_skipOK, newDeviceDir_skipOK).
  apply list_elem_of_lookup_1 in He as [pA HpA].
  destruct (list_devices_elem intSize d fs l Hl) as (names & _ & Hsorted & _).
  destruct (walk_replay fs addr A pA e l Hsorted d 0%nat [] Hok HA HpA Hi Ha
              ltac:(lia) Hlisted Hothers) as (dn & Hin & Hn & Hw).
  assert (Hr : r = mkCallResult (Ret (inl (filepath_Join (d_path d) (dn_name dn))))
                 (set_skipped d (delete pA (d_skipped d))) []).
  { subst r. unfold findByAddress. now rewrite Hl. }
  rewrite Hr. simpl. repeat split; [|eauto].
  exists (dn_name dn). split; [reflexivity|].
  rewrite (list_devices_parse intSize d fs l dn Hl Hin). destruct dn; simpl in *. now subst.
Qed.

(** The scenario "resolve iface:S1, then resolve iface:S3": [sensor0] was
    read and skipped by the first call and is returned by the second one
    without a read. *)
Lemma skip_and_replay_witness :
  let d := stateAfter 64 sensors [(dir_three, S1)] in
  returnsSlot 64 d (findByAddress 64 d dir_three S3) 0
  /\ reads (findByAddress 64 d dir_three S3) = [].
Proof.
  intros d.
  destruct (skip_and_replay 64 "/sys/class/lego-sensor" "sensor" [(dir_three, S1)]
              dir_three S3 0 (mkSkipEntry 0 S3)
              [mkDeviceName "sensor0" 0; mkDeviceName "sensor1" 1; mkDeviceName "sensor2" 2])
    as (H1 & H2 & _).
  - vm_compute. left.
  - reflexivity.
  - reflexivity.
  - lia.
  - vm_compute. reflexivity.
  - exists (mkDeviceName "sensor0" 0). split; [left | reflexivity].
  - intros dn e' Hin Hlt. exfalso.
    repeat (apply elem_of_cons in Hin as [->|Hin]; [simpl in Hlt; lia|]).
    now apply elem_of_nil in Hin.
  - split; [exact H1 | exact H2].
Defined.

(** Two devices have the address iface:S3.  Both are read and skipped by
    a call for iface:S1; the call for iface:S3 that follows returns the
    path of slot 0, not that of slot 1. *)
Lemma replay_returns_lower_twin :
  let r1 := findByAddress 64 sensors dir_twins S1 in
  let r2 := findByAddress 64 (st r1) dir_twins S3 in
  reads r1 = [(mkDeviceName "sensor0" 0, Some S3); (mkDeviceName "sensor1" 1, Some S3)]
  /\ d_skipped (st r1) = [mkSkipEntry 0 S3; mkSkipEntry 1 S3]
  /\ S3 <> S1
  /\ res r2 = Ret (inl "/sys/class/lego-sensor/sensor0"%string)
  /\ ~ returnsSlot 64 sensors r2 1.
Proof.
  split; [vm_compute; reflexivity|]. split; [vm_compute; reflexivity|].
  split; [vm_compute; discriminate|]. split; [vm_compute; reflexivity|].
  intros (name & Hres & Hparse).
  assert (Hr : res (findByAddress 64 (st (findByAddress 64 sensors dir_twins S1)) dir_twins S3)
               = Ret (inl (filepath_Join (d_path sensors) "sensor0")))
    by (vm_compute; reflexivity).
  rewrite Hr in Hres.
  assert (Hj : filepath_Join (d_path sensors) "sensor0" = filepath_Join (d_path sensors) name)
    by congruence.
  apply filepath_Join_inj in Hj. subst name.
  vm_compute in Hparse. discriminate.
Qed.

(** ** Which entries are listed *)

(** C5, as the code has it. An entry whose name is the prefix followed by
    one or more decimal digits is listed exactly when the number fits in
    [int]; an entry that does not start with the prefix is not listed,
    and neither is one whose suffix is empty or has a character that is
    not a digit (a sign in front apart); and in a directory none of whose
    entries is listed, every call reports "not found", reads nothing and
    leaves the scanner as it is. *)
Theorem listing_inclusion (intSize : Z) (d : deviceDir) (fs : sysfs)
    (names : list string) :
  readdirnames fs = inl names ->
  (forall name, name ∈ names ->
     (forall digits v,
        name = (d_prefix d ++ digits)%string -> digits <> EmptyString ->
        allDigits digits = true -> parseDigits digits 0 = Some v ->
        (listed intSize d fs name <-> v < 2 ^ (intSize - 1)))
     /\ (String.prefix (d_prefix d) name = false -> ~ listed intSize d fs name)
     /\ (forall suffix,
           name = (d_prefix d ++ suffix)%string -> nonNumeric suffix ->
           ~ listed intSize d fs name))
  /\ ((forall name, name ∈ names -> ~ listed intSize d fs name) ->
      forall addr,
        findByAddress intSize d fs addr
        = mkCallResult (Ret (inr (FindDevice addr NotFound))) d []).
Proof.
  intros Hnames. split.
  - intros name Hin. split; [|split].
    + intros digits v -> Hne Hdigits Hv.
      rewrite (listed_iff intSize d fs names _ Hnames).
      rewrite prefix_app, string_drop_app.
      destruct (Atoi_digits intSize digits v Hne Hdigits Hv) as [_ ->].
      destruct (Z.ltb_spec v (2 ^ (intSize - 1))) as [Hlt|Hge].
      * split; [auto | intros _; eauto].
      * split; [intros (_ & _ & n & Hn); discriminate | lia].
    + intros Hp. rewrite (listed_iff intSize d fs names _ Hnames).
      intros (_ & Hp' & _). congruence.
    + intros suffix -> Hbad. rewrite (listed_iff intSize d fs names _ Hnames).
      rewrite string_drop_app, (Atoi_nonNumeric intSize suffix Hbad).
      intros (_ & _ & n & Hn). discriminate.
  - intros Hnone addr. unfold findByAddress.
    destruct (list_devices intSize d fs) as [l|err] eqn:Hl.
    + destruct l as [|dn l]; [reflexivity|]. exfalso.
      destruct (list_devices_elem intSize d fs _ Hl) as (names' & Hnames' & _ & Hel).
      assert (names' = names) by congruence. subst names'.
      assert (Hdn : dn ∈ dn :: l) by left.
      apply (Hnone (dn_name dn)); [now apply Hel in Hdn|].
      exists (dn :: l), dn. auto.
    + unfold list_devices in Hl. rewrite Hnames in Hl. discriminate.
Qed.

(** The scenario with [bacon0] and [sensorX]: neither is listed, and a
    call reports "not found". *)
Lemma listing_inclusion_witness :
  findByAddress 64 sensors dir_bacon S3
  = mkCallResult (Ret (inr (FindDevice S3 NotFound))) sensors [].
Proof.
  destruct (listing_inclusion 64 sensors dir_bacon ["bacon0"%string; "sensorX"%string]
              eq_refl) as [Hname Hnone].
  apply Hnone. intros name Hin.
  destruct (Hname name Hin) as (_ & Hprefix & Hsuffix).
  apply elem_of_cons in Hin as [->|Hin];
    [|apply list_elem_of_singleton in Hin; subst name].
  - apply Hprefix. reflexivity.
  - apply (Hsuffix "X"%string); [reflexivity|].
    right. exists EmptyString, "X"%char, EmptyString.
    split; [reflexivity|]. split; [reflexivity|]. intros _. split; discriminate.
Defined.

(** An entry that is the prefix followed by digits and is not listed,
    since the number does not fit in 64 bits; and an entry that is listed
    although a sign stands between the prefix and the digits. *)
Lemma listing_not_prefix_digits :
  (prefixThenDigits "sensor" name_big = true
   /\ list_devices 64 sensors dir_big = inl []
   /\ ~ listed 64 sensors dir_big name_big)
  /\ (prefixThenDigits "sensor" name_minus5 = false
      /\ list_devices 64 sensors dir_minus5 = inl [mkDeviceName name_minus5 (-5)]
      /\ listed 64 sensors dir_minus5 name_minus5).
Proof.
  split; split; try (vm_compute; reflexivity); split; try (vm_compute; reflexivity).
  - intros (l & dn & Hl & Hin & _).
    assert (Hnil : list_devices 64 sensors dir_big = inl []) by (vm_compute; reflexivity).
    rewrite Hnil in Hl. inversion Hl; subst l. now apply elem_of_nil in Hin.
  - exists [mkDeviceName name_minus5 (-5)], (mkDeviceName name_minus5 (-5)).
    split; [vm_compute; reflexivity|]. split; [left | reflexivity].
Qed.

(** * Further properties *)

(** ** Integer attributes *)

Section IntegerAttributes.

Implicit Types (s pre acc : string) (c : list byte) (v n a bits : Z).

Lemma digitValue_digitChar n : 0 <= n <= 9 -> digitValue (digitChar n) = Some n.
Proof.
  intros Hn. rewrite <- (Z2Nat.id n) by lia.
  assert (Hk : (Z.to_nat n <= 9)%nat) by lia.
  revert Hk. generalize (Z.to_nat n) as k. intros k Hk.
  do 10 (destruct k as [|k]; [reflexivity|]). lia.
Qed.

Lemma parseDigits_app pre : forall s a,
  parseDigits (pre ++ s) a
  = match parseDigits pre a with
    | Some v => parseDigits s v
    | None => None
    end.
Proof.
  induction pre as [|ch pre IH]; intros s a; simpl; [reflexivity|].
  destruct (digitValue ch); [apply IH | reflexivity].
Qed.

Lemma allDigits_app pre s :
  allDigits (pre ++ s) = allDigits pre && allDigits s.
Proof.
  induction pre as [|ch pre IH]; simpl; [reflexivity|].
  destruct (digitValue ch); [exact IH | reflexivity].
Qed.

(** The digits that [formatUint] writes: at most [fuel] of them, at least
    one, and they read back as the number. *)
Lemma formatUint_digits (fuel : nat) : forall n acc,
  (0 < fuel)%nat -> 0 <= n < 10 ^ Z.of_nat fuel ->
  exists pre,
    formatUint fuel n acc = (pre ++ acc)%string
    /\ pre <> EmptyString
    /\ (String.length pre <= fuel)%nat
    /\ allDigits pre = true
    /\ forall a, parseDigits pre a = Some (a * 10 ^ Z.of_nat (String.length pre) + n).
Proof.
  induction fuel as [|fuel IH]; intros n acc Hfuel Hn; [lia|].
  simpl formatUint.
  assert (Hd : 0 <= n mod 10 <= 9) by (pose proof (Z.mod_pos_bound n 10); lia).
  destruct (Z.ltb_spec n 10) as [Hlt|Hge].
  - exists (String (digitChar (n mod 10)) EmptyString).
    rewrite Z.mod_small by lia. simpl.
    rewrite (digitValue_digitChar n) by lia.
    split; [reflexivity|]. split; [discriminate|]. split; [lia|].
    split; [reflexivity|]. intros a. f_equal; lia.
  - assert (Hfuel' : (0 < fuel)%nat).
    { destruct fuel; [|lia]. simpl in Hn. lia. }
    assert (Hq : 0 <= n / 10 < 10 ^ Z.of_nat fuel).
    { split; [apply Z.div_pos; lia|].
      apply Z.div_lt_upper_bound; [lia|].
      replace (Z.of_nat (S fuel)) with (Z.of_nat fuel + 1) in Hn by lia.
      rewrite Z.pow_add_r in Hn by lia. lia. }
    destruct (IH (n / 10) (String (digitChar (n mod 10)) acc) Hfuel' Hq)
      as (pre & Heq & Hne & Hlen & Hall & Hparse).
    exists (pre ++ String (digitChar (n mod 10)) EmptyString)%string.
    assert (Hlen' : String.length (pre ++ String (digitChar (n mod 10)) EmptyString)
                    = S (String.length pre)).
    { clear. induction pre; simpl; [reflexivity | now rewrite IHpre]. }
    split; [|split; [|split; [|split]]].
    + rewrite Heq. clear. induction pre; simpl; [reflexivity | now rewrite IHpre].
    + destruct pre; discriminate.
    + rewrite Hlen'. lia.
    + rewrite allDigits_app, Hall. simpl.
      now rewrite (digitValue_digitChar (n mod 10) Hd).
    + intros a. rewrite parseDigits_app, Hparse. simpl.
      rewrite (digitValue_digitChar (n mod 10) Hd), Hlen'. f_equal.
      replace (Z.of_nat (S (String.length pre))) with (Z.of_nat (String.length pre) + 1)
        by lia.
      rewrite Z.pow_add_r by lia.
      pose proof (Z.div_mod n 10 ltac:(lia)). lia.
Qed.

(** [Atoi] on a text with a minus sign in front. *)
Lemma Atoi_minus bits (ch : ascii) s :
  Atoi bits (String "-" (String ch s))
  = match parseDigits (String ch s) 0 with
    | None => None
    | Some v =>
        if (- 2 ^ (bits - 1) <=? - v) && (- v <? 2 ^ (bits - 1))
        then Some (- v) else None
    end.
Proof. reflexivity. Qed.

(** [ParseInt] reads what [FormatInt] writes, when the number fits. *)
Lemma ParseInt_FormatInt v bits :
  - 2 ^ 63 <= v < 2 ^ 63 ->
  ParseInt (FormatInt v) bits
  = if (- 2 ^ (bits - 1) <=? v) && (v <? 2 ^ (bits - 1)) then Some v else None.
Proof.
  intros Hv. unfold ParseInt, FormatInt.
  assert (H63 : 2 ^ 63 < 10 ^ Z.of_nat 20) by (vm_compute; reflexivity).
  assert (H2 : 0 <= 2 ^ (bits - 1)) by (apply Z.pow_nonneg; lia).
  destruct (Z.ltb_spec v 0) as [Hneg|Hpos].
  - destruct (formatUint_digits 20 (- v) EmptyString ltac:(lia) ltac:(lia))
      as (pre & Heq & Hne & _ & _ & Hparse).
    rewrite Heq. replace (pre ++ "")%string with pre
      by (clear; induction pre; simpl; [reflexivity | now rewrite <- IHpre]).
    destruct pre as [|ch pre]; [contradiction|].
    rewrite Atoi_minus, (Hparse 0).
    replace (- (0 * 10 ^ Z.of_nat (String.length (String ch pre)) + - v)) with v by lia.
    reflexivity.
  - destruct (formatUint_digits 20 v EmptyString ltac:(lia) ltac:(lia))
      as (pre & Heq & Hne & _ & Hall & Hparse).
    rewrite Heq. replace (pre ++ "")%string with pre
      by (clear; induction pre; simpl; [reflexivity | now rewrite <- IHpre]).
    specialize (Hparse 0).
    replace (0 * 10 ^ Z.of_nat (String.length pre) + v) with v in Hparse by lia.
    destruct (Atoi_digits bits pre v Hne Hall Hparse) as [_ ->].
    destruct (Z.leb_spec (- 2 ^ (bits - 1)) v); [reflexivity | lia].
Qed.

Lemma FormatInt_length v :
  - 2 ^ 63 <= v < 2 ^ 63 -> (String.length (FormatInt v) <= 21)%nat.
Proof.
  intros Hv. unfold FormatInt.
  assert (H63 : 2 ^ 63 < 10 ^ Z.of_nat 20) by (vm_compute; reflexivity).
  assert (Happ : forall pre, (pre ++ "")%string = pre)
    by (induction pre; simpl; [reflexivity | now f_equal]).
  destruct (Z.ltb_spec v 0) as [Hneg|Hpos].
  - destruct (formatUint_digits 20 (- v) EmptyString ltac:(lia) ltac:(lia))
      as (pre & -> & _ & Hlen & _). rewrite Happ. simpl. lia.
  - destruct (formatUint_digits 20 v EmptyString ltac:(lia) ltac:(lia))
      as (pre & -> & _ & Hlen & _). rewrite Happ. lia.
Qed.

(** What [readAttrBytes] leaves in the buffer: the first [n] bytes are
    the part of the content that fits the buffer, without one newline at
    its end. *)
Lemma readAttrBytes_content c (p : list byte) :
  exists (p' : list byte) (k : nat),
    readAttrBytes (FileContent c) p = (p', inl k)
    /\ length p' = length p
    /\ take k p' = stripNewline (take (length p) c).
Proof.
  unfold readAttrBytes.
  set (c' := take (length p) c).
  assert (Hc' : length c' = (length p `min` length c)%nat)
    by (unfold c'; now rewrite length_take).
  rewrite <- Hc'.
  assert (Htc : take (length c') c = c').
  { rewrite Hc'. rewrite <- take_take. now rewrite (take_ge c (length c)). }
  rewrite Htc.
  assert (Htp : take (length c') (c' ++ drop (length c') p) = c')
    by now rewrite take_app_length.
  rewrite Htp.
  eexists _, _. split; [reflexivity|]. split.
  - rewrite length_app, length_drop. lia.
  - unfold stripNewline. destruct (hasNewlineSuffix c').
    + now rewrite take_app_le by lia.
    + exact Htp.
Qed.

Lemma readAttrInt_content c bits :
  readAttrInt (FileContent c) bits
  = match ParseInt (string_of_list_byte (stripNewline (take 24 c))) bits with
    | None => inr IntParse
    | Some i => inl i
    end.
Proof.
  unfold readAttrInt.
  destruct (readAttrBytes_content c (replicate 24 x00)) as (p' & k & -> & _ & ->).
  now rewrite length_replicate.
Qed.

Lemma stripNewline_snoc c : stripNewline (c ++ [newline]) = c.
Proof.
  unfold stripNewline. rewrite hasNewlineSuffix_snoc, length_app. simpl.
  replace (length c + 1 - 1)%nat with (length c) by lia.
  now rewrite take_app_length.
Qed.

End IntegerAttributes.

Lemma digits_no_newline (s : string) :
  allDigits s = true -> Forall (fun b => b <> newline) (list_byte_of_string s).
Proof.
  unfold list_byte_of_string.
  induction s as [|ch s IH]; simpl; intros Hs; [constructor|].
  destruct (digitValue ch) as [d|] eqn:Hd; [|discriminate].
  constructor; [|now apply IH].
  intros Hb. assert (Hch : ch = ascii_of_byte newline)
    by (rewrite <- Hb; now rewrite ascii_of_byte_of_ascii).
  subst ch. vm_compute in Hd. discriminate.
Qed.

Lemma FormatInt_no_newline (v : Z) :
  - 2 ^ 63 <= v < 2 ^ 63 ->
  hasNewlineSuffix (list_byte_of_string (FormatInt v)) = false.
Proof.
  intros Hv.
  assert (Hall : Forall (fun b => b <> newline) (list_byte_of_string (FormatInt v))).
  { unfold FormatInt.
    assert (H63 : 2 ^ 63 < 10 ^ Z.of_nat 20) by (vm_compute; reflexivity).
    assert (Happ : forall pre, (pre ++ "")%string = pre)
      by (induction pre; simpl; [reflexivity | now f_equal]).
    destruct (Z.ltb_spec v 0) as [Hneg|Hpos].
    - destruct (formatUint_digits 20 (- v) EmptyString ltac:(lia) ltac:(lia))
        as (pre & -> & _ & _ & Hd & _). rewrite Happ.
      change (list_byte_of_string (String "-" pre))
        with (byte_of_ascii "-" :: list_byte_of_string pre).
      constructor; [discriminate | now apply digits_no_newline].
    - destruct (formatUint_digits 20 v EmptyString ltac:(lia) ltac:(lia))
        as (pre & -> & _ & _ & Hd & _). rewrite Happ. now apply digits_no_newline. }
  unfold hasNewlineSuffix.
  destruct (last (list_byte_of_string (FormatInt v))) as [b|] eqn:Hlast; [|reflexivity].
  rewrite Forall_forall in Hall.
  assert (Hb : b <> newline).
  { apply Hall. rewrite last_lookup in Hlast. eapply list_elem_of_lookup_2. exact Hlast. }
  destruct (Byte.eqb b newline) eqn:E; [|reflexivity].
  apply Byte.byte_dec_bl in E. contradiction.
Qed.

(** An integer attribute is read back as the number that was printed:
    for an [int64] [v], [readAttrInt] on the decimal text of [v], with or
    without the newline that the kernel adds, gives [v] when [v] fits in
    [bits] bits, and fails otherwise.  The buffer of 24 bytes holds the
    text of every [int64]. *)
Theorem readAttrInt_FormatInt (v bits : Z) :
  - 2 ^ 63 <= v < 2 ^ 63 ->
  let expected : Z + intError :=
    if (- 2 ^ (bits - 1) <=? v) && (v <? 2 ^ (bits - 1)) then inl v else inr IntParse in
  readAttrInt (FileContent (intAttr v)) bits = expected
  /\ readAttrInt (FileContent (list_byte_of_string (FormatInt v))) bits = expected.
Proof.
  intros Hv expected. subst expected.
  pose proof (FormatInt_length v Hv) as Hlen.
  rewrite <- length_list_byte_of_string in Hlen.
  split; rewrite readAttrInt_content.
  - unfold intAttr.
    rewrite (take_ge _ 24) by (rewrite length_app; simpl; lia).
    rewrite stripNewline_snoc, string_of_list_byte_of_string, (ParseInt_FormatInt v bits Hv).
    now destruct ((- 2 ^ (bits - 1) <=? v) && (v <? 2 ^ (bits - 1))).
  - rewrite (take_ge _ 24) by lia.
    unfold stripNewline. rewrite (FormatInt_no_newline v Hv).
    rewrite string_of_list_byte_of_string, (ParseInt_FormatInt v bits Hv).
    now destruct ((- 2 ^ (bits - 1) <=? v) && (v <? 2 ^ (bits - 1))).
Qed.

Lemma readAttrInt_FormatInt_witness :
  readAttrInt (FileContent (intAttr (-1234))) 32 = inl (-1234)
  /\ readAttrInt (FileContent (intAttr 40000)) 16 = inr IntParse.
Proof.
  split.
  - apply (proj1 (readAttrInt_FormatInt (-1234) 32 ltac:(lia))).
  - apply (proj1 (readAttrInt_FormatInt 40000 16 ltac:(lia))).
Defined.

(** The edges of [readAttrInt]: a read that fails is reported as such;
    an attribute that is empty, or holds nothing but a newline, is a parse
    error; and only the first 24 bytes of an attribute are looked at. *)
Theorem readAttrInt_edges (bits : Z) :
  (forall e, readAttrInt (FileFails e) bits = inr (IntRead (ReadAttribute e)))
  /\ readAttrInt (FileContent []) bits = inr IntParse
  /\ readAttrInt (FileContent [newline]) bits = inr IntParse
  /\ (forall c, readAttrInt (FileContent c) bits
                = readAttrInt (FileContent (take 24 c)) bits).
Proof.
  split; [reflexivity|]. split; [reflexivity|]. split; [reflexivity|].
  intros c. rewrite !readAttrInt_content. now rewrite take_take.
Qed.

(** ** Arithmetic of [int32] *)

Lemma wrap32_range (z : Z) : - 2 ^ 31 <= wrap32 z < 2 ^ 31.
Proof.
  unfold wrap32. pose proof (Z.mod_pos_bound (z + 2 ^ 31) (2 ^ 32) ltac:(lia)). lia.
Qed.

Lemma wrap32_small (z : Z) : - 2 ^ 31 <= z < 2 ^ 31 -> wrap32 z = z.
Proof. intros Hz. unfold wrap32. rewrite Z.mod_small; lia. Qed.

Lemma wrap32_congr (x y : Z) : x mod 2 ^ 32 = y mod 2 ^ 32 -> wrap32 x = wrap32 y.
Proof.
  intros H. unfold wrap32.
  rewrite <- (Z.add_mod_idemp_l x), <- (Z.add_mod_idemp_l y) by lia. now rewrite H.
Qed.

Lemma wrap32_mod (x : Z) : wrap32 x mod 2 ^ 32 = x mod 2 ^ 32.
Proof.
  unfold wrap32. rewrite Zminus_mod_idemp_l. f_equal. lia.
Qed.

Lemma wrap32_mul_l (a b : Z) : wrap32 (wrap32 a * b) = wrap32 (a * b).
Proof.
  apply wrap32_congr. rewrite <- Z.mul_mod_idemp_l by lia.
  rewrite wrap32_mod. now rewrite Z.mul_mod_idemp_l by lia.
Qed.

Lemma wrap32_add_l (a b : Z) : wrap32 (wrap32 a + b) = wrap32 (a + b).
Proof.
  apply wrap32_congr. rewrite <- Z.add_mod_idemp_l by lia.
  rewrite wrap32_mod. now rewrite Z.add_mod_idemp_l by lia.
Qed.

Lemma wrap32_add_r (a b : Z) : wrap32 (a + wrap32 b) = wrap32 (a + b).
Proof. rewrite Z.add_comm, wrap32_add_l. f_equal. lia. Qed.

Lemma wrap32_opp (a : Z) : wrap32 (- wrap32 a) = wrap32 (- a).
Proof.
  apply wrap32_congr.
  replace (- wrap32 a) with (-1 * wrap32 a) by lia.
  replace (- a) with (-1 * a) by lia.
  rewrite <- Z.mul_mod_idemp_r by lia. rewrite wrap32_mod.
  now rewrite Z.mul_mod_idemp_r by lia.
Qed.

(** ** Positions of a tacho motor *)

(** [Add] and [Sub] on positions undo each other for all [int32], also
    when the sum or the difference wraps around. *)
Theorem TachoPosition_Add_Sub (pos pos2 delta : Z) :
  - 2 ^ 31 <= pos < 2 ^ 31 -> - 2 ^ 31 <= delta < 2 ^ 31 ->
  - 2 ^ 31 <= pos2 < 2 ^ 31 ->
  TachoPosition_Sub (TachoPosition_Add pos delta) pos = delta
  /\ TachoPosition_Add pos2 (TachoPosition_Sub pos pos2) = pos.
Proof.
  intros Hpos Hdelta Hpos2. unfold TachoPosition_Sub, TachoPosition_Add. split.
  - replace (wrap32 (pos + delta) - pos) with (wrap32 (pos + delta) + - pos) by lia.
    rewrite wrap32_add_l. replace (pos + delta + - pos) with delta by lia.
    now apply wrap32_small.
  - rewrite wrap32_add_r. replace (pos2 + (pos - pos2)) with pos by lia.
    now apply wrap32_small.
Qed.

Lemma TachoPosition_Add_Sub_witness :
  TachoPosition_Sub (TachoPosition_Add 2147483647 5) 2147483647 = 5
  /\ TachoPosition_Add (-2147483648) (TachoPosition_Sub 2147483647 (-2147483648))
     = 2147483647.
Proof. apply TachoPosition_Add_Sub; lia. Defined.

(** ** Package [fixedpoint] *)

Module fixedpointFacts.

Import fixedpoint.

Lemma wrap16u_small (z : Z) : 0 <= z < 2 ^ 16 -> wrap16u z = z.
Proof. intros Hz. unfold wrap16u. now apply Z.mod_small. Qed.

(** A loop of [normalize] ends within [fuel] rounds when the decimals
    are that close to the target. *)
Lemma raise_scaled (fuel : nat) : forall (fp : Value) (target : Z),
  0 <= decimals fp -> target < 2 ^ 16 -> target - decimals fp <= Z.of_nat fuel ->
  raise fuel target fp = Ret (scaled fp target).
Proof.
  induction fuel as [|fuel IH]; intros fp target Hd Ht Hfuel; simpl; unfold scaled.
  - destruct (Z.gtb_spec target (decimals fp)); [lia | reflexivity].
  - destruct (Z.gtb_spec target (decimals fp)) as [Hgt|Hle]; [|reflexivity].
    assert (Hb : decimals (bump fp) = decimals fp + 1)
      by (simpl; apply wrap16u_small; lia).
    rewrite IH by (rewrite ?Hb; lia). unfold scaled. rewrite Hb.
    destruct (Z.gtb_spec target (decimals fp + 1)) as [Hgt'|Hle'].
    + simpl value. rewrite wrap32_mul_l. f_equal. f_equal.
      replace (target - decimals fp) with (1 + (target - (decimals fp + 1))) by lia.
      rewrite Z.pow_add_r by lia. rewrite Z.pow_1_r. f_equal. ring.
    + assert (target = decimals fp + 1) by lia. subst target.
      unfold bump. rewrite wrap16u_small by lia.
      replace (decimals fp + 1 - decimals fp) with 1 by lia. now rewrite Z.pow_1_r.
Qed.

Lemma scaled_decimals (fp : Value) (d : Z) :
  decimals fp <= d -> decimals (scaled fp d) = d.
Proof.
  intros Hd. unfold scaled.
  destruct (Z.gtb_spec d (decimals fp)); simpl; lia.
Qed.

Lemma normalize_scaled (fp1 fp2 : Value) :
  wf fp1 -> wf fp2 ->
  normalize fp1 fp2
  = Ret (scaled fp1 (Z.max (decimals fp1) (decimals fp2)),
         scaled fp2 (Z.max (decimals fp1) (decimals fp2))).
Proof.
  intros [_ H1] [_ H2]. unfold normalize.
  assert (Hr : Z.of_nat rounds = 2 ^ 16) by (unfold rounds; lia).
  rewrite (raise_scaled rounds fp2 (decimals fp1)) by lia.
  destruct (Z.le_gt_cases (decimals fp1) (decimals fp2)) as [Hle|Hgt].
  - rewrite Z.max_r by lia.
    assert (Hs : scaled fp2 (decimals fp1) = fp2).
    { unfold scaled. destruct (Z.gtb_spec (decimals fp1) (decimals fp2)); [lia | reflexivity]. }
    rewrite Hs. rewrite (raise_scaled rounds fp1 (decimals fp2)) by lia.
    f_equal. f_equal. unfold scaled.
    destruct (Z.gtb_spec (decimals fp2) (decimals fp2)); [lia | reflexivity].
  - rewrite Z.max_l by lia.
    rewrite (scaled_decimals fp2 (decimals fp1)) by lia.
    rewrite (raise_scaled rounds fp1 (decimals fp1)) by lia. reflexivity.
Qed.

Lemma normalized_scaled {A : Type} (f : Value -> Value -> A) (fp1 fp2 : Value) :
  wf fp1 -> wf fp2 ->
  normalized f fp1 fp2
  = Ret (f (scaled fp1 (Z.max (decimals fp1) (decimals fp2)))
           (scaled fp2 (Z.max (decimals fp1) (decimals fp2)))).
Proof. intros H1 H2. unfold normalized. now rewrite normalize_scaled. Qed.

(** The number in a value that has been brought to [d] decimals. *)
Lemma scaled_value (fp : Value) (d : Z) :
  wf fp -> decimals fp <= d ->
  value (scaled fp d) = wrap32 (value fp * 10 ^ (d - decimals fp)).
Proof.
  intros [Hv _] Hd. unfold scaled.
  destruct (Z.gtb_spec d (decimals fp)) as [Hgt|Hle]; [reflexivity|].
  replace (d - decimals fp) with 0 by lia. rewrite Z.pow_0_r, Z.mul_1_r.
  symmetry. now apply wrap32_small.
Qed.

(** [normalize] brings both values to the larger number of decimals, by
    multiplications with ten in [int32]; the value that has the larger
    number of decimals is returned as it is. *)
Theorem normalize_common_decimals (fp1 fp2 : Value) :
  wf fp1 -> wf fp2 ->
  let d := Z.max (decimals fp1) (decimals fp2) in
  exists fp1' fp2',
    normalize fp1 fp2 = Ret (fp1', fp2')
    /\ decimals fp1' = d /\ decimals fp2' = d
    /\ value fp1' = wrap32 (value fp1 * 10 ^ (d - decimals fp1))
    /\ value fp2' = wrap32 (value fp2 * 10 ^ (d - decimals fp2))
    /\ (decimals fp2 <= decimals fp1 -> fp1' = fp1)
    /\ (decimals fp1 <= decimals fp2 -> fp2' = fp2).
Proof.
  intros H1 H2 d. subst d. eexists _, _.
  split; [now apply normalize_scaled|].
  split; [apply scaled_decimals; lia|]. split; [apply scaled_decimals; lia|].
  split; [apply scaled_value; [exact H1 | lia]|].
  split; [apply scaled_value; [exact H2 | lia]|].
  split; intros Hle; unfold scaled.
  - rewrite Z.max_l by lia. destruct (Z.gtb_spec (decimals fp1) (decimals fp1)); [lia | reflexivity].
  - rewrite Z.max_r by lia. destruct (Z.gtb_spec (decimals fp2) (decimals fp2)); [lia | reflexivity].
Qed.

Lemma normalize_common_decimals_witness :
  normalize (mkValue 100 2) (mkValue 5 1) = Ret (mkValue 100 2, mkValue 50 2).
Proof.
  destruct (normalize_common_decimals (mkValue 100 2) (mkValue 5 1))
    as (fp1' & fp2' & Hn & Hd1 & Hd2 & Hv1 & Hv2 & Hfp1 & _).
  - unfold wf. simpl. lia.
  - unfold wf. simpl. lia.
  - rewrite Hn. rewrite (Hfp1 ltac:(simpl; lia)).
    destruct fp2' as [v2 d2]. simpl in *. subst. reflexivity.
Defined.

(** [Add] gives the sum at the larger number of decimals: the sum of the
    two numbers brought to that many decimals, in [int32]; it is the exact
    sum when neither a scaling nor the addition leaves [int32]. *)
Theorem Add_sum (fp1 fp2 : Value) :
  wf fp1 -> wf fp2 ->
  let d := Z.max (decimals fp1) (decimals fp2) in
  let exact := value fp1 * 10 ^ (d - decimals fp1) + value fp2 * 10 ^ (d - decimals fp2) in
  exists r,
    Add fp1 fp2 = Ret r /\ wf r
    /\ decimals r = d
    /\ value r = wrap32 exact
    /\ (- 2 ^ 31 <= exact < 2 ^ 31 -> value r = exact).
Proof.
  intros H1 H2 d exact. unfold Add. rewrite normalized_scaled by assumption.
  eexists. split; [reflexivity|]. fold d.
  assert (Hd : decimals (scaled fp1 d) = d) by (apply scaled_decimals; lia).
  assert (Hv : wrap32 (value (scaled fp1 d) + value (scaled fp2 d)) = wrap32 exact).
  { rewrite !scaled_value by (assumption || lia).
    rewrite wrap32_add_l, wrap32_add_r. reflexivity. }
  simpl. rewrite Hd, Hv.
  split; [|split; [reflexivity | split; [reflexivity | apply wrap32_small]]].
  split; simpl; [apply wrap32_range|]. destruct H1 as [_ ?], H2 as [_ ?]. lia.
Qed.

Lemma Add_sum_witness :
  exists r, Add (mkValue 100 2) (mkValue 5 1) = Ret r /\ value r = 150 /\ decimals r = 2.
Proof.
  destruct (Add_sum (mkValue 100 2) (mkValue 5 1)) as (r & Hr & _ & Hd & _ & Hv).
  - unfold wf. simpl. lia.
  - unfold wf. simpl. lia.
  - exists r. split; [exact Hr|]. split; [|exact Hd].
    apply Hv. vm_compute. split; [discriminate | reflexivity].
Defined.

(** [Add] is commutative, overflow or not. *)
Theorem Add_comm (fp1 fp2 : Value) :
  wf fp1 -> wf fp2 -> Add fp1 fp2 = Add fp2 fp1.
Proof.
  intros H1 H2. unfold Add. rewrite !normalized_scaled by assumption.
  rewrite (Z.max_comm (decimals fp2) (decimals fp1)).
  rewrite !scaled_decimals by lia. now rewrite Z.add_comm.
Qed.

Lemma Add_comm_witness :
  Add (mkValue 100 2) (mkValue 5 1) = Add (mkValue 5 1) (mkValue 100 2).
Proof. apply Add_comm; unfold wf; simpl; lia. Defined.

(** The zero value is neutral for [Add]. *)
Theorem Add_zero (fp : Value) :
  wf fp -> Add fp (mkValue 0 0) = Ret fp /\ Add (mkValue 0 0) fp = Ret fp.
Proof.
  intros Hfp.
  assert (H0 : wf (mkValue 0 0)) by (unfold wf; simpl; lia).
  assert (Hl : Add fp (mkValue 0 0) = Ret fp).
  { destruct (Add_sum fp (mkValue 0 0) Hfp H0) as (r & Hr & _ & Hd & _ & Hv).
    rewrite Hr. f_equal. destruct Hfp as [Hv' Hd']. simpl in *.
    rewrite Z.max_l in Hd, Hv by lia.
    rewrite Z.sub_diag, Z.pow_0_r in Hv. specialize (Hv ltac:(lia)).
    destruct r, fp. simpl in *. f_equal; lia. }
  split; [exact Hl|]. now rewrite Add_comm.
Qed.

Lemma Add_zero_witness : Add (mkValue 1234 2) (mkValue 0 0) = Ret (mkValue 1234 2).
Proof.
  assert (Hwf : wf (mkValue 1234 2)) by (unfold wf; simpl; lia).
  exact (proj1 (Add_zero (mkValue 1234 2) Hwf)).
Defined.

Lemma Neg_wf (fp : Value) : wf fp -> wf (Neg fp).
Proof. intros [_ Hd]. split; simpl; [apply wrap32_range | exact Hd]. Qed.

(** [Sub] is [Add] of the negation, and negating twice gives the value
    back; both hold in [int32], overflow or not. *)
Theorem Sub_Add_Neg (fp1 fp2 : Value) :
  wf fp1 -> wf fp2 ->
  Sub fp1 fp2 = Add fp1 (Neg fp2) /\ Neg (Neg fp2) = fp2.
Proof.
  intros H1 H2. split.
  - pose proof (Neg_wf fp2 H2) as H2'.
    unfold Sub, Add. rewrite !normalized_scaled by assumption.
    change (decimals (Neg fp2)) with (decimals fp2).
    f_equal. f_equal.
    rewrite !scaled_value by (assumption || (simpl; lia)).
    change (decimals (Neg fp2)) with (decimals fp2).
    unfold Neg at 1. simpl value.
    rewrite wrap32_mul_l.
    replace (wrap32 (value fp1 * 10 ^ (Z.max (decimals fp1) (decimals fp2) - decimals fp1))
             - wrap32 (value fp2 * 10 ^ (Z.max (decimals fp1) (decimals fp2) - decimals fp2)))
      with (wrap32 (value fp1 * 10 ^ (Z.max (decimals fp1) (decimals fp2) - decimals fp1))
            + - wrap32 (value fp2 * 10 ^ (Z.max (decimals fp1) (decimals fp2) - decimals fp2)))
      by lia.
    rewrite <- (wrap32_add_r _ (- wrap32 _)), wrap32_opp, !wrap32_add_r.
    f_equal. lia.
  - destruct H2 as [Hv _]. unfold Neg. simpl. rewrite wrap32_opp.
    destruct fp2 as [v d]. simpl in *. f_equal.
    replace (- - v) with v by lia. now apply wrap32_small.
Qed.

Lemma Sub_Add_Neg_witness :
  Sub (mkValue 100 2) (mkValue 5 1) = Add (mkValue 100 2) (Neg (mkValue 5 1)).
Proof.
  assert (H1 : wf (mkValue 100 2)) by (unfold wf; simpl; lia).
  assert (H2 : wf (mkValue 5 1)) by (unfold wf; simpl; lia).
  exact (proj1 (Sub_Add_Neg (mkValue 100 2) (mkValue 5 1) H1 H2)).
Defined.

(** [Equal] and [Less] compare the numbers that the values stand for,
    [value / 10 ^ decimals], when bringing them to the same number of
    decimals does not leave [int32]. *)
Theorem compare_exact (fp1 fp2 : Value) :
  wf fp1 -> wf fp2 ->
  let d := Z.max (decimals fp1) (decimals fp2) in
  - 2 ^ 31 <= value fp1 * 10 ^ (d - decimals fp1) < 2 ^ 31 ->
  - 2 ^ 31 <= value fp2 * 10 ^ (d - decimals fp2) < 2 ^ 31 ->
  Equal fp1 fp2
  = Ret (value fp1 * 10 ^ decimals fp2 =? value fp2 * 10 ^ decimals fp1)
  /\ Less fp1 fp2
     = Ret (value fp1 * 10 ^ decimals fp2 <? value fp2 * 10 ^ decimals fp1).
Proof.
  intros H1 H2 d Hs1 Hs2. unfold Equal, Less.
  rewrite !normalized_scaled by assumption. fold d.
  rewrite !scaled_value by (assumption || lia).
  rewrite !wrap32_small by assumption.
  destruct H1 as [_ Hd1], H2 as [_ Hd2].
  set (s1 := value fp1 * 10 ^ (d - decimals fp1)) in *.
  set (s2 := value fp2 * 10 ^ (d - decimals fp2)) in *.
  set (K := 10 ^ (decimals fp1 + decimals fp2 - d)).
  assert (HK : 0 < K) by (apply Z.pow_pos_nonneg; lia).
  assert (E1 : value fp1 * 10 ^ decimals fp2 = s1 * K).
  { unfold s1, K. rewrite <- Z.mul_assoc, <- Z.pow_add_r by lia.
    f_equal. f_equal. lia. }
  assert (E2 : value fp2 * 10 ^ decimals fp1 = s2 * K).
  { unfold s2, K. rewrite <- Z.mul_assoc, <- Z.pow_add_r by lia.
    f_equal. f_equal. lia. }
  rewrite E1, E2. split; f_equal.
  - destruct (Z.eqb_spec s1 s2) as [->|Hne]; [now rewrite Z.eqb_refl|].
    symmetry. apply Z.eqb_neq. nia.
  - destruct (Z.ltb_spec s1 s2) as [Hlt|Hge]; symmetry.
    + apply Z.ltb_lt. nia.
    + apply Z.ltb_ge. nia.
Qed.

Lemma compare_exact_witness :
  Equal (mkValue 42 0) (mkValue 4200 2) = Ret true
  /\ Less (mkValue 50 2) (mkValue 42 1) = Ret true.
Proof.
  split.
  - apply (proj1 (compare_exact (mkValue 42 0) (mkValue 4200 2)
                    ltac:(unfold wf; simpl; lia) ltac:(unfold wf; simpl; lia)
                    ltac:(vm_compute; split; [discriminate | reflexivity])
                    ltac:(vm_compute; split; [discriminate | reflexivity]))).
  - apply (proj2 (compare_exact (mkValue 50 2) (mkValue 42 1)
                    ltac:(unfold wf; simpl; lia) ltac:(unfold wf; simpl; lia)
                    ltac:(vm_compute; split; [discriminate | reflexivity])
                    ltac:(vm_compute; split; [discriminate | reflexivity]))).
Defined.

Lemma quot_rounds (n : nat) : forall (v : Z) (start : nat),
  foldl (fun v (_ : nat) => Z.quot v 10) v (seq start n) = Z.quot v (10 ^ Z.of_nat n).
Proof.
  induction n as [|n IH]; intros v start.
  - simpl. now rewrite Z.quot_1_r.
  - simpl seq. simpl foldl. rewrite IH.
    replace (Z.of_nat (S n)) with (1 + Z.of_nat n) by lia.
    rewrite Z.pow_add_r, Z.pow_1_r by lia.
    assert (0 < 10 ^ Z.of_nat n) by (apply Z.pow_pos_nonneg; lia).
    rewrite Z.quot_quot by lia. reflexivity.
Qed.

(** [Int] is the number without its fraction: the quotient of the
    integer by [10 ^ decimals], truncated toward zero. *)
Theorem Int_truncates (fp : Value) :
  0 <= decimals fp -> Int fp = Z.quot (value fp) (10 ^ decimals fp).
Proof.
  intros Hd. unfold Int. rewrite quot_rounds. now rewrite Z2Nat.id.
Qed.

Lemma Int_truncates_witness : Int (mkValue (-1234) 2) = -12.
Proof. apply (Int_truncates (mkValue (-1234) 2)). simpl. lia. Defined.

(** [Shift10] leaves the integer as it is and adds the absolute value of
    [n] to the number of decimals (modulo [2 ^ 16]), for a negative and for
    a positive [n] alike. *)
Theorem Shift10_decimals (fp : Value) (n : Z) :
  0 <= decimals fp < 2 ^ 16 -> - 2 ^ 15 <= n < 2 ^ 15 ->
  Shift10 fp n = mkValue (value fp) ((decimals fp + Z.abs n) mod 2 ^ 16).
Proof.
  intros Hd Hn. unfold Shift10, wrap16u.
  destruct (Z.ltb_spec n 0) as [Hneg|Hpos]; f_equal.
  - rewrite Zminus_mod_idemp_r. rewrite Z.abs_neq by lia.
    now replace (decimals fp + - n) with (decimals fp - n) by lia.
  - rewrite Zplus_mod_idemp_r. rewrite Z.abs_eq by lia. reflexivity.
Qed.

Lemma Shift10_decimals_witness :
  Shift10 (FromInt 1234) (-2) = mkValue 1234 2
  /\ Shift10 (FromInt 1234) 2 = mkValue 1234 2.
Proof.
  split.
  - apply (Shift10_decimals (FromInt 1234) (-2)); simpl; lia.
  - apply (Shift10_decimals (FromInt 1234) 2); simpl; lia.
Defined.

End fixedpointFacts.

(** ** Sensors *)

Section SensorFacts.

Import fixedpoint.

Implicit Types (fs : filesys) (path : string) (s : Sensor) (i : Z).

(** A number that [Atoi] accepts is in the range of the bit size. *)
Lemma Atoi_range (bits : Z) (t : string) (v : Z) :
  Atoi bits t = Some v -> - 2 ^ (bits - 1) <= v < 2 ^ (bits - 1).
Proof.
  unfold Atoi.
  match goal with
  | |- context [match ?M with pair _ _ => _ end] => destruct M as [neg body]
  end.
  destruct body as [|ch body]; [discriminate|].
  destruct (parseDigits (String ch body) 0) as [w|]; [|discriminate].
  cbv zeta.
  destruct (Z.leb_spec (- 2 ^ (bits - 1)) (if neg then - w else w)); [|discriminate].
  destruct (Z.ltb_spec (if neg then - w else w) (2 ^ (bits - 1))); [|discriminate].
  simpl. intros [= <-]. lia.
Qed.

Lemma readAttrInt_range (f : file) (bits v : Z) :
  readAttrInt f bits = inl v -> - 2 ^ (bits - 1) <= v < 2 ^ (bits - 1).
Proof.
  unfold readAttrInt. destruct (readAttrBytes f (replicate 24 x00)) as [buf [n|err]];
    [|discriminate].
  destruct (ParseInt (string_of_list_byte (take n buf)) bits) as [w|] eqn:Hp;
    [|discriminate].
  intros [= <-]. eapply Atoi_range. exact Hp.
Qed.

Lemma wrap16_small (z : Z) : - 2 ^ 15 <= z < 2 ^ 15 -> wrap16 z = z.
Proof. intros Hz. unfold wrap16. rewrite Z.mod_small; lia. Qed.

Lemma openValues_files fs path (n : nat) : forall (k : nat) (values : list (option handle)),
  (k + n <= 8)%nat ->
  openValues fs path (seq k n) (valueFiles path k) = inl values ->
  values = valueFiles path (k + n).
Proof.
  induction n as [|n IH]; intros k values Hk; simpl.
  - intros [= <-]. now rewrite Nat.add_0_r.
  - destruct (os_Open fs (filepath_Join path (valueName k))); [discriminate|].
    assert (Hins : <[k := Some (filepath_Join path (valueName k))]> (valueFiles path k)
                   = valueFiles path (S k)).
    { unfold valueFiles. rewrite insert_app_r_alt by (rewrite length_map, length_seq; lia).
      rewrite length_map, length_seq, Nat.sub_diag.
      replace (8 - k)%nat with (S (8 - S k)) by lia. simpl replicate.
      simpl (<[0%nat:=_]> _). rewrite seq_S, map_app. simpl.
      now rewrite <- app_assoc. }
    rewrite Hins. intros H. apply IH in H; [|lia].
    now replace (k + S n)%nat with (S k + n)%nat by lia.
Qed.

Lemma firstNil_valueFiles path (k : nat) :
  (k <= 8)%nat -> firstNil (valueFiles path k) 0 = k.
Proof.
  intros Hk. unfold valueFiles.
  assert (H : forall (l : list nat) (rest : list (option handle)) (i : nat),
             firstNil (map (fun j => Some (filepath_Join path (valueName j))) l ++ rest) i
             = firstNil rest (i + length l)).
  { induction l as [|j l IH]; intros rest i; simpl; [now rewrite Nat.add_0_r|].
    rewrite IH. f_equal. lia. }
  rewrite H, length_seq. simpl. now destruct (8 - k)%nat.
Qed.

(** What [newSensor] has done when it returns a sensor. *)
Lemma newSensor_inv fs path s :
  newSensor fs path = inl s ->
  exists (k : nat) (d : Z),
    (1 <= k <= 8)%nat
    /\ readAttrInt (at_path fs (filepath_Join path "num_values")) 8 = inl (Z.of_nat k)
    /\ readAttrInt (at_path fs (filepath_Join path "decimals")) 16 = inl d
    /\ s = mkSensor d (valueFiles path k).
Proof.
  unfold newSensor.
  destruct (os_Open fs (filepath_Join path "decimals")); [discriminate|].
  destruct (readAttrInt (at_path fs (filepath_Join path "decimals")) 16) as [d|] eqn:Hd;
    [|discriminate].
  destruct (os_Open fs (filepath_Join path "num_values")); [discriminate|].
  destruct (readAttrInt (at_path fs (filepath_Join path "num_values")) 8) as [nv|] eqn:Hnv;
    [|discriminate].
  destruct (Z.ltb_spec nv 1); [discriminate|].
  destruct (Z.gtb_spec nv 8); [discriminate|]. simpl orb. cbv iota.
  destruct (openValues fs path (seq 0 (Z.to_nat nv)) (replicate 8 None)) as [values|]
    eqn:Hv; [|discriminate].
  intros [= <-].
  apply (openValues_files fs path (Z.to_nat nv) 0 values ltac:(lia)) in Hv.
  exists (Z.to_nat nv), d. split; [lia|]. split; [now rewrite Z2Nat.id by lia|].
  split; [reflexivity|]. subst values. f_equal.
  apply readAttrInt_range in Hd. apply wrap16_small. lia.
Qed.

(** A sensor that [newSensor] returns has from 1 to 8 values: [NValues]
    is the number in the attribute [num_values], the value files are
    open exactly for the indices below it, and [decimals] is the number
    in the attribute [decimals]. *)
Theorem newSensor_values fs path s :
  newSensor fs path = inl s ->
  (1 <= NValues s <= 8)%nat
  /\ readAttrInt (at_path fs (filepath_Join path "num_values")) 8
     = inl (Z.of_nat (NValues s))
  /\ readAttrInt (at_path fs (filepath_Join path "decimals")) 16 = inl (s_decimals s)
  /\ length (s_values s) = 8%nat
  /\ forall j : nat, (j < 8)%nat ->
       s_values s !! j
       = Some (if (j <? NValues s)%nat then Some (filepath_Join path (valueName j))
               else None).
Proof.
  intros Hs. destruct (newSensor_inv fs path s Hs) as (k & d & Hk & Hnv & Hd & ->).
  unfold NValues. simpl. rewrite firstNil_valueFiles by lia.
  split; [exact Hk|]. split; [exact Hnv|]. split; [exact Hd|].
  unfold valueFiles. split.
  - rewrite length_app, length_map, length_seq, length_replicate. lia.
  - intros j Hj. destruct (Nat.ltb_spec j k) as [Hlt|Hge].
    + rewrite lookup_app_l by (rewrite length_map, length_seq; lia).
      rewrite list_lookup_fmap_Some_2 with (x := j); [reflexivity|].
      rewrite lookup_seq. split; [reflexivity | lia].
    + rewrite lookup_app_r by (rewrite length_map, length_seq; lia).
      rewrite lookup_replicate_2; [reflexivity|].
      rewrite length_map, length_seq. lia.
Qed.

Lemma newSensor_values_witness :
  newSensor sensor0_files sensor0_path = inl sensor0
  /\ NValues sensor0 = 2%nat /\ length (s_values sensor0) = 8%nat.
Proof.
  assert (Hs : newSensor sensor0_files sensor0_path = inl sensor0)
    by (vm_compute; reflexivity).
  destruct (newSensor_values sensor0_files sensor0_path sensor0 Hs)
    as (_ & _ & _ & Hlen & _).
  split; [exact Hs|]. split; [reflexivity | exact Hlen].
Defined.

Lemma wrap16_range (z : Z) : - 2 ^ 15 <= wrap16 z < 2 ^ 15.
Proof.
  unfold wrap16. pose proof (Z.mod_pos_bound (z + 2 ^ 15) (2 ^ 16) ltac:(lia)). lia.
Qed.

Lemma abs_wrap16_opp (d : Z) :
  - 2 ^ 15 <= d < 2 ^ 15 -> Z.abs (wrap16 (- d)) = Z.abs d.
Proof.
  intros Hd. destruct (Z.eq_dec d (- 2 ^ 15)) as [->|Hne]; [reflexivity|].
  rewrite wrap16_small by lia. lia.
Qed.

(** [Value(i)] of a sensor that [newSensor] has returned never indexes
    out of range, and it reports "no such value" exactly for the [i]
    outside the range from 0 to [NValues()]. *)
Theorem Sensor_Value_index fs path s (readAt : handle -> file) i :
  newSensor fs path = inl s ->
  (exists v, Sensor_Value readAt s i = Ret v)
  /\ (Sensor_Value readAt s i = Ret (inr (NoSuchValue i))
      <-> ~ (0 <= i < Z.of_nat (NValues s))).
Proof.
  intros Hs.
  destruct (newSensor_values fs path s Hs) as (Hk & _ & _ & Hlen & Hval).
  unfold Sensor_Value. rewrite Hlen.
  destruct (Z.ltb_spec i 0) as [Hneg|Hpos]; simpl orb; cbv iota.
  - split; [eauto|]. split; [lia | reflexivity].
  - destruct (Z.geb_spec i (Z.of_nat 8)) as [Hge|Hlt]; cbv iota.
    + split; [eauto|]. split; [lia | reflexivity].
    + pose proof (Hval (Z.to_nat i) ltac:(lia)) as Hi. unfold handle in *.
      rewrite Hi.
      destruct (Nat.ltb_spec (Z.to_nat i) (NValues s)) as [Hin|Hout].
      * destruct (readAttrInt (readAt (filepath_Join path (valueName (Z.to_nat i)))) 32);
          (split; [eauto|]); (split; [discriminate | lia]).
      * split; [eauto|]. split; [lia | reflexivity].
Qed.

Lemma Sensor_Value_index_witness :
  Sensor_Value (at_path sensor0_files) sensor0 2 = Ret (inr (NoSuchValue 2)).
Proof.
  apply (proj2 (Sensor_Value_index sensor0_files sensor0_path sensor0
                  (at_path sensor0_files) 2 (proj1 newSensor_values_witness))).
  change (NValues sensor0) with 2%nat. lia.
Defined.

(** For an index in the range, [Value(i)] reads the file [value<i>] as an
    [int32]; the value it returns has the integer that was read and as
    many decimals as the absolute value of the attribute [decimals]. *)
Theorem Sensor_Value_scaled fs path s (readAt : handle -> file) i :
  newSensor fs path = inl s ->
  0 <= i < Z.of_nat (NValues s) ->
  Sensor_Value readAt s i
  = match readAttrInt (readAt (filepath_Join path (valueName (Z.to_nat i)))) 32 with
    | inr err => Ret (inr (ReadValue i err))
    | inl v => Ret (inl (mkValue v (Z.abs (s_decimals s))))
    end.
Proof.
  intros Hs Hi.
  destruct (newSensor_values fs path s Hs) as (Hk & _ & Hd & Hlen & Hval).
  apply readAttrInt_range in Hd.
  unfold Sensor_Value. rewrite Hlen.
  destruct (Z.ltb_spec i 0) as [Hneg|_]; [lia|].
  destruct (Z.geb_spec i (Z.of_nat 8)) as [Hge|_]; [lia|]. simpl orb. cbv iota.
  pose proof (Hval (Z.to_nat i) ltac:(lia)) as Hv'. unfold handle in *.
  rewrite Hv'.
  destruct (Nat.ltb_spec (Z.to_nat i) (NValues s)) as [_|Hout]; [|lia].
  destruct (readAttrInt (readAt (filepath_Join path (valueName (Z.to_nat i)))) 32)
    as [v|err] eqn:Hv; [|reflexivity].
  apply readAttrInt_range in Hv.
  assert (H0 : 0 <= decimals (FromInt (wrap32 v)) < 2 ^ 16) by (simpl; lia).
  rewrite (fixedpointFacts.Shift10_decimals _ _ H0 (wrap16_range _)).
  simpl. rewrite wrap32_small by lia. rewrite abs_wrap16_opp by lia.
  rewrite Z.mod_small by lia. reflexivity.
Qed.

Lemma Sensor_Value_scaled_witness :
  Sensor_Value (at_path sensor0_files) sensor0 1 = Ret (inl (mkValue (-7) 1)).
Proof.
  assert (Hi : 0 <= 1 < Z.of_nat (NValues sensor0))
    by (change (NValues sensor0) with 2%nat; lia).
  rewrite (Sensor_Value_scaled sensor0_files sensor0_path sensor0
             (at_path sensor0_files) 1 (proj1 newSensor_values_witness) Hi).
  vm_compute. reflexivity.
Defined.

End SensorFacts.

(** ** Equality of addresses *)

(** An address that the program makes is the array of [newAddress] for
    the text that [String] shows. *)
Lemma produced_canonical (a : address) :
  produced a ->
  exists t, (String.length t <= 63)%nat /\ newAddress t = inl a
            /\ address_String a = Some t.
Proof.
  intros [[t Ht]|[f Hf]].
  - destruct (Nat.le_gt_cases (String.length t) 63) as [Hle|Hgt].
    + exists t. split; [exact Hle|]. split; [exact Ht|].
      rewrite newAddress_encoded in Ht by exact Hle. inversion Ht as [Ha].
      rewrite <- length_list_byte_of_string.
      rewrite address_String_encoded by (rewrite length_list_byte_of_string; exact Hle).
      now rewrite string_of_list_byte_of_string.
    + pose proof (proj2 (newAddress_too_long t) Hgt). congruence.
  - destruct f as [c|e]; [|discriminate].
    rewrite readAttrAddr_content in Hf. cbv zeta in Hf.
    set (c' := take 64 c) in *.
    set (n := if hasNewlineSuffix c' then (length c' - 1)%nat else length c') in *.
    destruct (Nat.ltb_spec 63 n) as [Hgt|Hle]; [discriminate|].
    inversion Hf as [Ha]. clear Hf.
    assert (Hn : (n <= length c')%nat) by (unfold n; destruct (hasNewlineSuffix c'); lia).
    assert (Hlen : length (take n c') = n) by (rewrite length_take; lia).
    exists (string_of_list_byte (take n c')).
    assert (Hsl : String.length (string_of_list_byte (take n c')) = n).
    { rewrite <- length_list_byte_of_string, list_byte_of_string_of_list_byte. exact Hlen. }
    split; [lia|]. split.
    + rewrite newAddress_encoded by lia.
      now rewrite Hsl, list_byte_of_string_of_list_byte.
    + rewrite <- Hlen at 1. apply address_String_encoded. lia.
Qed.

(** Two addresses that the program has made, from a requested text or
    from an attribute, are equal as arrays exactly when they show the same
    text; and [String] does not panic on them. *)
Theorem address_equal_text (a b : address) :
  produced a -> produced b ->
  (address_eqb a b = true <-> address_String a = address_String b)
  /\ address_String a <> None.
Proof.
  intros Ha Hb.
  destruct (produced_canonical a Ha) as (ta & _ & Hna & Hsa).
  destruct (produced_canonical b Hb) as (tb & _ & Hnb & Hsb).
  split; [|congruence].
  rewrite address_eqb_eq, Hsa, Hsb. split.
  - intros ->. congruence.
  - intros [= ->]. congruence.
Qed.

Lemma address_equal_text_witness :
  address_eqb S1 (addressOf "iface:S1") = true
  <-> address_String S1 = address_String (addressOf "iface:S1").
Proof.
  apply (address_equal_text S1 (addressOf "iface:S1")).
  - left. exists "iface:S1"%string. reflexivity.
  - right. exists (FileContent (attr "iface:S1")). vm_compute. reflexivity.
Defined.

(** ** Ports of the brick *)

(** A run that returns a path has found the address in the skip list as
    it was at the start, or in the attribute of the entry. *)
Lemma walks_hit fs (a : address) l d log r :
  walks fs a l d log r ->
  forall path, res r = Ret (inl path) ->
  exists dn, dn ∈ l /\ path = filepath_Join (d_path d) (dn_name dn)
    /\ ((exists e, e ∈ d_skipped d /\ se_i e = dn_n dn /\ se_addr e = a)
        \/ (exists f, openAddress fs (dn_name dn) = inl f /\ readAttrAddr f = inl a)).
Proof.
  induction 1 as [d log | dn rest d log r i e He Hi Ha _ IH | dn rest d log i e He Hi Ha
    | dn rest d log r _ _ _ IH | dn rest d log err' Hg Ho
    | dn rest d log addrFile err' Hg Ho Hr | dn rest d log addrFile devAddr Hg Ho Hr Ha
    | dn rest d log r addrFile devAddr Hg Ho Hr Ha _ IH]; simpl in *; intros path Hp;
    try discriminate.
  - destruct (IH path Hp) as (dn' & Hin & -> & Hwhy).
    exists dn'. split; [now right | auto].
  - inversion Hp; subst path. exists dn. split; [now left|]. split; [reflexivity|].
    left. exists e. split; [eapply list_elem_of_lookup_2; exact He|].
    split; [exact Hi | now apply address_eqb_eq].
  - destruct (IH path Hp) as (dn' & Hin & -> & Hwhy).
    exists dn'. split; [now right | auto].
  - inversion Hp; subst path. exists dn. split; [now left|]. split; [reflexivity|].
    right. exists addrFile. split; [exact Ho|]. rewrite Hr. f_equal.
    now apply address_eqb_eq.
  - destruct (IH path Hp) as (dn' & Hin & -> & Hwhy).
    exists dn'. split; [now right|]. split; [reflexivity|].
    destruct Hwhy as [(e & He & Hi & Hea)|Hread]; [|now right].
    left. exists e. split; [|auto].
    apply elem_of_app in He as [He|He]; [exact He|].
    apply list_elem_of_singleton in He. subst e. simpl in Hea. subst devAddr.
    assert (Hrefl : address_eqb a a = true) by now apply address_eqb_eq.
    congruence.
Qed.

Section PortFacts.

Variable intSize : Z.

Implicit Types (brick : Brick) (fs : sysfs) (addr : string) (p : Port) (d : deviceDir).

Lemma findByAddress_returns d fs (a : address) :
  exists v, res (findByAddress intSize d fs a) = Ret v.
Proof.
  destruct (findByAddress_cases intSize d fs a) as [(err & _ & ->)|(l & _ & Hw)].
  - simpl. eauto.
  - now apply walks_returns in Hw.
Qed.

(** The two ways of a call: the address is refused, or the ports are
    scanned and the outcome of the scan is handed on. *)
Lemma PortByAddress_cases brick fs addr :
  (exists err, newAddress addr = inr err
     /\ PortByAddress intSize brick fs addr = (Ret (inr (FindPort addr err)), brick))
  \/ (exists a, newAddress addr = inl a
        /\ snd (PortByAddress intSize brick fs addr)
           = mkBrick (st (findByAddress intSize (brick_ports brick) fs a))
               (brick_devices brick)
        /\ ((exists path,
               res (findByAddress intSize (brick_ports brick) fs a) = Ret (inl path)
               /\ fst (PortByAddress intSize brick fs addr) = Ret (inl (mkPort path a)))
            \/ (exists err,
                  res (findByAddress intSize (brick_ports brick) fs a) = Ret (inr err)
                  /\ fst (PortByAddress intSize brick fs addr)
                     = Ret (inr (FindPort addr err))))).
Proof.
  unfold PortByAddress. destruct (newAddress addr) as [a|err]; [right | left; eauto].
  exists a. split; [reflexivity|].
  destruct (findByAddress_returns (brick_ports brick) fs a) as [v Hv].
  rewrite Hv. destruct v as [path|err]; simpl; split; eauto.
Qed.

(** A port that is returned carries the requested address and the path
    of a listed entry of the directory of the ports; the scanners of the
    motors and of the sensors stay as they are. *)
Theorem PortByAddress_found brick fs addr p :
  fst (PortByAddress intSize brick fs addr) = Ret (inl p) ->
  Port_Addr p = Some addr
  /\ newAddress addr = inl (port_addr p)
  /\ (exists name, listed intSize (brick_ports brick) fs name
        /\ port_path p = filepath_Join (d_path (brick_ports brick)) name)
  /\ brick_devices (snd (PortByAddress intSize brick fs addr)) = brick_devices brick.
Proof.
  intros Hp.
  destruct (PortByAddress_cases brick fs addr)
    as [(err & _ & Heq)|(a & Ha & Hsnd & [(path & Hres & Hfst)|(err & _ & Hfst)])].
  - rewrite Heq in Hp. discriminate.
  - rewrite Hfst in Hp. inversion Hp; subst p. clear Hp. simpl.
    split; [|split; [exact Ha|split]].
    + unfold Port_Addr. simpl.
      destruct (produced_canonical a) as (t & _ & Ht & Hs); [left; eauto|].
      destruct (Nat.le_gt_cases (String.length addr) 63) as [Hle|Hgt].
      * rewrite newAddress_encoded in Ha by exact Hle. inversion Ha as [Ha'].
        rewrite <- length_list_byte_of_string.
        rewrite address_String_encoded by (rewrite length_list_byte_of_string; exact Hle).
        now rewrite string_of_list_byte_of_string.
      * pose proof (proj2 (newAddress_too_long addr) Hgt). congruence.
    + destruct (findByAddress_cases intSize (brick_ports brick) fs a)
        as [(err & _ & Heq)|(l & Hl & Hw)].
      * rewrite Heq in Hres. discriminate.
      * destruct (walks_found _ _ _ _ _ _ Hw _ Hres) as (dn & Hin & Hpath).
        exists (dn_name dn). split; [|exact Hpath]. exists l, dn. auto.
    + now rewrite Hsnd.
  - rewrite Hfst in Hp. discriminate.
Qed.

(** An address of more than 63 bytes is refused before the directory is
    looked at: the error is the same for every directory, and the brick
    is as before. *)
Theorem PortByAddress_too_long brick fs addr :
  (63 < String.length addr)%nat ->
  PortByAddress intSize brick fs addr = (Ret (inr (FindPort addr AddressTooLong)), brick).
Proof.
  intros Hlen. unfold PortByAddress.
  now rewrite (proj2 (newAddress_too_long addr) Hlen).
Qed.

(** The slot [N], from 0 on, is claimed in the scanner [d]: it is at most
    the high-water mark and the skip list has no entry for it. *)
Lemma PortByAddress_masked (N : Z) brick fs addr :
  0 <= N -> N <= d_n (brick_ports brick) ->
  (forall e, e ∈ d_skipped (brick_ports brick) -> se_i e <> N) ->
  N <= d_n (brick_ports (snd (PortByAddress intSize brick fs addr)))
  /\ (forall e, e ∈ d_skipped (brick_ports (snd (PortByAddress intSize brick fs addr))) ->
        se_i e <> N)
  /\ d_path (brick_ports (snd (PortByAddress intSize brick fs addr)))
     = d_path (brick_ports brick)
  /\ d_prefix (brick_ports (snd (PortByAddress intSize brick fs addr)))
     = d_prefix (brick_ports brick).
Proof.
  intros HN Hle Hno.
  destruct (PortByAddress_cases brick fs addr) as [(err & _ & ->)|(a & _ & -> & _)];
    simpl; [auto|].
  destruct (findByAddress_masked intSize (fun _ => False) N (brick_ports brick) fs a HN Hle
              ltac:(intros e He Hi; exact (Hno e He Hi))) as (H1 & H2 & _ & _).
  destruct (findByAddress_frame intSize (brick_ports brick) fs a) as [Hp Hx].
  split; [exact H1|]. split; [|split; [exact Hp | exact Hx]].
  intros e He Hi. exact (H2 e He Hi).
Qed.

Lemma callsOn_masked (N : Z) (calls : list (sysfs * string)) : forall brick,
  0 <= N -> N <= d_n (brick_ports brick) ->
  (forall e, e ∈ d_skipped (brick_ports brick) -> se_i e <> N) ->
  N <= d_n (brick_ports (callsOn intSize brick calls))
  /\ (forall e, e ∈ d_skipped (brick_ports (callsOn intSize brick calls)) -> se_i e <> N)
  /\ d_path (brick_ports (callsOn intSize brick calls)) = d_path (brick_ports brick)
  /\ d_prefix (brick_ports (callsOn intSize brick calls)) = d_prefix (brick_ports brick).
Proof.
  induction calls as [|[fs addr] calls IH]; intros brick HN Hle Hno; simpl; [auto|].
  destruct (PortByAddress_masked N brick fs addr HN Hle Hno) as (H1 & H2 & H3 & H4).
  destruct (IH _ HN H1 H2) as (I1 & I2 & I3 & I4).
  unfold callsOn in *. simpl. rewrite I3, I4. auto.
Qed.

(** "Subsequent calls for the same address will return an error": once
    a call has returned the port of slot [N], a slot from 0 on, a later
    call for the same address, after any calls in between, returns an
    error, as long as no other listed slot is known under this address,
    in the skip list or by its attribute. *)
Theorem PortByAddress_again brick fs addr p (name : string) (N : Z)
    (calls : list (sysfs * string)) fs' :
  skipOK (brick_ports brick) ->
  fst (PortByAddress intSize brick fs addr) = Ret (inl p) ->
  port_path p = filepath_Join (d_path (brick_ports brick)) name ->
  parseDeviceName intSize name (d_prefix (brick_ports brick)) = mkDeviceName name N ->
  0 <= N ->
  let later := callsOn intSize (snd (PortByAddress intSize brick fs addr)) calls in
  (forall l dn,
     list_devices intSize (brick_ports later) fs' = inl l -> dn ∈ l -> dn_n dn <> N ->
     (forall e, e ∈ d_skipped (brick_ports later) -> se_i e = dn_n dn ->
        se_addr e <> port_addr p)
     /\ (forall f, openAddress fs' (dn_name dn) = inl f ->
           readAttrAddr f <> inl (port_addr p))) ->
  exists err, fst (PortByAddress intSize later fs' addr) = Ret (inr (FindPort addr err)).
Proof.
  intros Hok Hp Hpath Hparse HN later Hunique.
  destruct (PortByAddress_cases brick fs addr)
    as [(err & _ & Heq)|(a & Ha & Hsnd & [(path & Hres & Hfst)|(err & _ & Hfst)])];
    [rewrite Heq in Hp; discriminate | | rewrite Hfst in Hp; discriminate].
  rewrite Hfst in Hp. inversion Hp; subst p. clear Hp. simpl in Hpath, Hunique.
  set (d := brick_ports brick) in *.
  assert (Hret : returnsSlot intSize d (findByAddress intSize d fs a) N).
  { exists name. split; [now rewrite Hres, Hpath | exact Hparse]. }
  destruct (findByAddress_claimed intSize d fs a N Hok HN Hret) as [Hle Hno].
  destruct (findByAddress_frame intSize d fs a) as [Hfp Hfx].
  destruct (callsOn_masked N calls (snd (PortByAddress intSize brick fs addr)) HN)
    as (L1 & L2 & L3 & L4); [rewrite Hsnd; exact Hle | rewrite Hsnd; exact Hno |].
  fold later in L1, L2, L3, L4. rewrite Hsnd in L3, L4. simpl in L3, L4.
  destruct (PortByAddress_cases later fs' addr)
    as [(err & _ & Heq)|(a' & Ha' & _ & [(path' & Hres' & _)|(err & _ & Hfst')])].
  - rewrite Heq. simpl. eauto.
  - exfalso. assert (a' = a) by congruence. subst a'.
    set (d' := brick_ports later) in *.
    destruct (findByAddress_cases intSize d' fs' a) as [(err & _ & Heq)|(l & Hl & Hw)];
      [rewrite Heq in Hres'; discriminate|].
    destruct (walks_hit _ _ _ _ _ _ Hw _ Hres') as (dn & Hin & Hpath' & Hwhy).
    destruct (Z.eq_dec (dn_n dn) N) as [Heq|Hne].
    + destruct (findByAddress_masked intSize (fun _ => False) N d' fs' a HN L1
                  ltac:(intros e He Hi; exact (L2 e He Hi))) as (_ & _ & Hfalse & _).
      apply Hfalse. exists (dn_name dn). split; [now rewrite Hres', Hpath'|].
      rewrite (list_devices_parse intSize d' fs' l dn Hl Hin).
      destruct dn as [nm k]. simpl in *. now subst k.
    + destruct (Hunique l dn Hl Hin Hne) as [Hsk Hrd].
      destruct Hwhy as [(e & He & Hi & Hea)|(f & Ho & Hr)].
      * exact (Hsk e He Hi Hea).
      * exact (Hrd f Ho Hr).
  - rewrite Hfst'. eauto.
Qed.

End PortFacts.

Lemma PortByAddress_found_witness :
  Port_Addr port1 = Some text_S2
  /\ brick_devices (snd (PortByAddress 64 brick0 dir_ports text_S2)) = brick_devices brick0.
Proof.
  assert (H : fst (PortByAddress 64 brick0 dir_ports text_S2) = Ret (inl port1))
    by (vm_compute; reflexivity).
  pose proof (PortByAddress_found 64 brick0 dir_ports text_S2 port1 H) as (H1 & _ & _ & H4).
  split; [exact H1 | exact H4].
Defined.

Lemma PortByAddress_too_long_witness :
  PortByAddress 64 brick0 dir_ports text64
  = (Ret (inr (FindPort text64 AddressTooLong)), brick0).
Proof.
  apply (PortByAddress_too_long 64 brick0 dir_ports text64).
  apply Nat.ltb_lt. vm_compute. reflexivity.
Defined.

Lemma PortByAddress_again_witness :
  exists err,
    fst (PortByAddress 64 (callsOn 64 brick1 [(dir_ports, text_S1)]) dir_ports text_S2)
    = Ret (inr (FindPort text_S2 err)).
Proof.
  assert (Hok : skipOK (brick_ports brick0)) by apply newDeviceDir_skipOK.
  assert (H : fst (PortByAddress 64 brick0 dir_ports text_S2) = Ret (inl port1))
    by (vm_compute; reflexivity).
  assert (Hpath : port_path port1
                  = filepath_Join (d_path (brick_ports brick0)) "port1")
    by (vm_compute; reflexivity).
  assert (Hparse : parseDeviceName 64 "port1" (d_prefix (brick_ports brick0))
                   = mkDeviceName "port1" 1)
    by (vm_compute; reflexivity).
  refine (PortByAddress_again 64 brick0 dir_ports text_S2 port1 "port1" 1
            [(dir_ports, text_S1)] dir_ports Hok H Hpath Hparse ltac:(lia) _).
  intros l dn Hl Hin Hne.
  assert (Hl' : l = [mkDeviceName "port0" 0; mkDeviceName "port1" 1]).
  { vm_compute in Hl. now inversion Hl. }
  subst l.
  apply elem_of_cons in Hin as [->|Hin].
  - split.
    + intros e He. vm_compute in He. now apply elem_of_nil in He.
    + intros f Ho. vm_compute in Ho. inversion Ho; subst f. vm_compute. discriminate.
  - apply list_elem_of_singleton in Hin. subst dn. simpl in Hne. lia.
Defined.
